(** * docker-flow-proxy, package [proxy]: the service data model (types.go)

    A shallow embedding of [src/proxy/types.go] and the properties of its
    credential parser, its ACL ordering and its placeholder user.

    Go strings are byte sequences; they are modelled as [list ascii]
    (an [ascii] is one byte).  Every byte the parser looks for (newline,
    comma, tab, space, colon) is below 0x80, and UTF-8 never uses such a
    byte inside a multi-byte sequence, so the rune-wise library functions
    ([strings.FieldsFunc], [strings.Trim]) act on these strings exactly as
    the byte-wise functions below. *)

From Stdlib Require Import Ascii String ZArith Lia.
From stdpp Require Import base option list sets sorting.

Abbreviation gostring := (list ascii).
Abbreviation go s := (list_ascii_of_string s%string).

Definition NL : ascii := "010"%char.
Definition TAB : ascii := "009"%char.
Definition SP : ascii := " "%char.
Definition COMMA : ascii := ","%char.
Definition COLON : ascii := ":"%char.

#[global] Instance ascii_eq_decision : EqDecision ascii := ascii_dec.

(** ** The parts of Go's [strings] package the parser calls *)
Module strings.

(** [strings.FieldsFunc(s, f)]: the maximal non-empty runs of bytes that
    do not satisfy [f].  [start] is the field being read, if any (the
    library keeps its start offset; here its bytes so far). *)
Fixpoint fieldsFrom (f : ascii -> bool) (s : gostring)
    (start : option gostring) : list gostring :=
  match s with
  | [] => match start with Some w => [w] | None => [] end
  | c :: s' =>
      if f c then
        match start with
        | Some w => w :: fieldsFrom f s' None
        | None => fieldsFrom f s' None
        end
      else
        match start with
        | Some w => fieldsFrom f s' (Some (w ++ [c]))
        | None => fieldsFrom f s' (Some [c])
        end
  end.

Definition FieldsFunc (s : gostring) (f : ascii -> bool) : list gostring :=
  fieldsFrom f s None.

Definition inCutset (cutset : gostring) (c : ascii) : bool :=
  bool_decide (c ∈ cutset).

(** [strings.TrimLeft]: drop the leading bytes that are in [cutset]. *)
Fixpoint TrimLeft (s cutset : gostring) : gostring :=
  match s with
  | [] => []
  | c :: s' => if inCutset cutset c then TrimLeft s' cutset else s
  end.

(** [strings.TrimRight]: drop the trailing bytes that are in [cutset]. *)
Definition TrimRight (s cutset : gostring) : gostring :=
  reverse (TrimLeft (reverse s) cutset).

(** [strings.Trim] for a cutset of ASCII bytes, as the two cutsets of the
    parser are: both ends, byte by byte.  (For a cutset that holds a
    non-ASCII rune the library compares runes; that case is not modelled and
    not used.) *)
Definition Trim (s cutset : gostring) : gostring :=
  TrimLeft (TrimRight s cutset) cutset.

(** [strings.Index(s, substr)] for a one-byte [substr]: the offset of the
    first occurrence, or -1. *)
Fixpoint Index (s : gostring) (c : ascii) : Z :=
  match s with
  | [] => (-1)%Z
  | x :: s' =>
      if bool_decide (x = c) then 0%Z
      else let i := Index s' c in
           if (i <? 0)%Z then (-1)%Z else (i + 1)%Z
  end.

(** [strings.Contains(s, substr)] is [Index(s, substr) >= 0]. *)
Definition Contains (s : gostring) (c : ascii) : bool :=
  (0 <=? Index s c)%Z.

End strings.

(** Slice expressions [s[lo:hi]] and [s[lo:]] on a string, for offsets
    within [0 .. len(s)] (outside that range Go panics; the parser only
    slices at the offset [strings.Index] found, see [colon_index_in_range]). *)
Definition slice (s : gostring) (lo hi : Z) : gostring :=
  take (Z.to_nat hi - Z.to_nat lo) (drop (Z.to_nat lo) s).

Definition sliceFrom (s : gostring) (lo : Z) : gostring :=
  drop (Z.to_nat lo) s.

(** ** Users *)

Record User := mkUser {
  Username : gostring;
  Password : gostring;
  PassEncrypted : bool
}.

(** [HasPassword] (types.go, 123-125): [strings.EqualFold] with the empty
    string holds for the empty string only. *)
Definition HasPassword (user : User) : bool :=
  negb (length (Password user) =? 0)%nat.

(** A call of the package's [logPrintf], which is declared outside
    types.go: the source line of the call, the format and the arguments. *)
Record LogCall := mkLogCall {
  logLine : nat;
  logFormat : string;
  logArgs : list gostring
}.

(** What [ExtractUsersFromString] builds up: the slice it returns and the
    diagnostics it has printed, oldest first. *)
Record Extraction := mkExtraction {
  collectedUsers : list User;
  printed : list LogCall
}.

Definition logPrintf (line : nat) (format : string) (args : list gostring)
    (st : Extraction) : Extraction :=
  {| collectedUsers := collectedUsers st;
     printed := printed st ++ [mkLogCall line format args] |}.

Definition appendUser (u : User) (st : Extraction) : Extraction :=
  {| collectedUsers := collectedUsers st ++ [u];
     printed := printed st |}.

Definition invalidUserFormat : string :=
  "For service %s there is an invalid user with no name or invalid format".

Definition noPasswordFormat : string :=
  "For service %s there is an user %s with no password which is not allowed here".

Definition splitter (x : ascii) : bool :=
  bool_decide (x = NL) || bool_decide (x = COMMA).

(** One iteration of [for _, user := range users] (types.go, 143-169). *)
Definition extractUser (context : gostring) (encrypted skipEmptyPassword : bool)
    (st : Extraction) (user : gostring) : Extraction :=
  let user := strings.Trim user [NL; TAB; SP] in
  if (length user =? 0)%nat then st
  else if strings.Contains user COLON then
    let colonIndex := strings.Index user COLON in
    let userName := strings.Trim (slice user 0 colonIndex) [TAB; SP] in
    let userPass := strings.Trim (sliceFrom user (colonIndex + 1)) [TAB; SP] in
    if (length userName =? 0)%nat || (length userPass =? 0)%nat then
      logPrintf 153 invalidUserFormat [context] st
    else
      appendUser {| Username := userName; Password := userPass;
                    PassEncrypted := encrypted |} st
  else
    if (length user =? 0)%nat then
      logPrintf 160 invalidUserFormat [context] st
    else if skipEmptyPassword then
      logPrintf 163 noPasswordFormat [context; user] st
    else if negb skipEmptyPassword then
      (* [&User{Username: user}]: the other two fields keep their zero values *)
      appendUser {| Username := user; Password := []; PassEncrypted := false |} st
    else st.

(** [collectedUsers := []*User{}], and nothing printed yet. *)
Definition nothing : Extraction := {| collectedUsers := []; printed := [] |}.

(** [ExtractUsersFromString] (types.go, 134-171), together with what it
    printed. *)
Definition ExtractUsersFromString (context usersString : gostring)
    (encrypted skipEmptyPassword : bool) : Extraction :=
  if (length usersString =? 0)%nat then nothing
  else
    let users := strings.FieldsFunc usersString splitter in
    foldl (extractUser context encrypted skipEmptyPassword) nothing users.

(** ** Services *)

Record ServiceDest := mkServiceDest {
  Port : gostring;
  ServicePath : list gostring;
  SrcPort : Z;
  SrcPortAcl : gostring;
  SrcPortAclName : gostring
}.

Record Service := mkService {
  AclName : gostring;
  ConsulTemplateFePath : gostring;
  ConsulTemplateBePath : gostring;
  Distribute : bool;
  HttpsOnly : bool;
  HttpsPort : Z;
  OutboundHostname : gostring;
  PathType : gostring;
  RedirectWhenHttpProto : bool;
  ReqMode : gostring;
  ReqRepReplace : gostring;
  ReqRepSearch : gostring;
  ReqPathReplace : gostring;
  ReqPathSearch : gostring;
  ServiceCert : gostring;
  ServiceDomain : list gostring;
  ServiceDomainMatchAll : bool;
  ServiceName : gostring;
  SkipCheck : bool;
  SslVerifyNone : bool;
  TemplateBePath : gostring;
  TemplateFePath : gostring;
  TimeoutServer : gostring;
  TimeoutTunnel : gostring;
  Users : list User;
  ServiceColor : gostring;
  ServicePort : gostring;
  AclCondition : gostring;
  FullServiceName : gostring;
  Host : gostring;
  LookupRetry : Z;
  LookupRetryInterval : Z;
  ServiceDest_ : list ServiceDest (* the field [ServiceDest]; the name is taken by its type *)
}.

Abbreviation Services := (list Service).

(** Go's [<] on strings: byte-wise lexicographic, a proper prefix first. *)
Fixpoint stringLess (a b : gostring) : bool :=
  match a, b with
  | _, [] => false
  | [], _ :: _ => true
  | x :: a', y :: b' =>
      if (nat_of_ascii x <? nat_of_ascii y)%nat then true
      else if (nat_of_ascii y <? nat_of_ascii x)%nat then false
      else stringLess a' b'
  end.

(** The [sort.Interface] methods of [Services] (types.go, 105-115).  An
    index outside the slice makes Go panic: [None]. *)
Definition Len (slice : Services) : nat := length slice.

Definition Less (slice : Services) (i j : nat) : option bool :=
  a ← slice !! i;
  b ← slice !! j;
  Some (stringLess (AclName a) (AclName b)).

Definition Swap (slice : Services) (i j : nat) : option Services :=
  a ← slice !! i;
  b ← slice !! j;
  Some (<[j := a]> (<[i := b]> slice)).

(** Modelled from the spec: the inner loop of [sortByAclName] (below); the
    element at offset [j] is swapped towards the front while it is [Less]
    than the one before it. *)
Fixpoint insertDown (data : Services) (j : nat) : option Services :=
  match j with
  | 0 => Some data
  | S j' =>
      lt ← Less data j j';
      if lt : bool then data' ← Swap data j j'; insertDown data' j'
      else Some data
  end.

(** Modelled from the spec: the outer loop of [sortByAclName], [n] more
    elements to place, the next one at offset [i]. *)
Fixpoint insertionSortFrom (n i : nat) (data : Services) : option Services :=
  match n with
  | 0 => Some data
  | S n' => data' ← insertDown data i; insertionSortFrom n' (S i) data'
  end.

(** Modelled from the spec: [sortByAclName], the sort of a [Services]
    collection through its [Len]/[Less]/[Swap] methods.  The sorting
    procedure itself ([sort.Sort], called where the collection is
    assembled) is not in types.go.  The spec asks for an in-place ascending
    order by aclName in which ties keep their relative input order; this is
    the insertion sort over the three methods.  [None] is a panic of
    [Less] or [Swap]. *)
Definition sortByAclName (data : Services) : option Services :=
  insertionSortFrom (Len data - 1) 1 data.

(** Ascending order of aclName: [b] is not [Less] than [a]. *)
Definition aclLe (a b : Service) : Prop :=
  stringLess (AclName b) (AclName a) = false.





(** The zero value of [Service], with the two names filled in. *)
Definition named (aclName serviceName : gostring) : Service :=
  {| AclName := aclName; ConsulTemplateFePath := []; ConsulTemplateBePath := [];
     Distribute := false; HttpsOnly := false; HttpsPort := 0;
     OutboundHostname := []; PathType := []; RedirectWhenHttpProto := false;
     ReqMode := []; ReqRepReplace := []; ReqRepSearch := [];
     ReqPathReplace := []; ReqPathSearch := []; ServiceCert := [];
     ServiceDomain := []; ServiceDomainMatchAll := false;
     ServiceName := serviceName; SkipCheck := false; SslVerifyNone := false;
     TemplateBePath := []; TemplateFePath := []; TimeoutServer := [];
     TimeoutTunnel := []; Users := []; ServiceColor := []; ServicePort := [];
     AclCondition := []; FullServiceName := []; Host := []; LookupRetry := 0;
     LookupRetryInterval := 0; ServiceDest_ := [] |}.

(** ** The placeholder user *)
Module strconv.

Definition digits : gostring := go "0123456789abcdefghijklmnopqrstuvwxyz".

Definition digit (d : Z) : ascii := nth (Z.to_nat d) digits "0"%char.

(** The general case of [formatBits]: digits are written from the end of
    a 65-byte buffer towards its start; [room] is the number of free
    bytes left for digits, [a] what has been written.  A 64-bit number
    never needs more than 64 digits, so [room] does not run out. *)
Fixpoint formatBits (room : nat) (u b : Z) (a : gostring) : gostring :=
  match room with
  | 0 => a
  | S room' =>
      if (b <=? u)%Z then
        let q := (u / b)%Z in
        formatBits room' q b (digit (u - q * b) :: a)
      else digit u :: a
  end.

(** [strconv.FormatInt(i, base)] for a base other than 10 and no power
    of two (the base [RandomUser] asks for is 3). *)
Definition FormatInt (i : Z) (base : Z) : gostring :=
  let neg := (i <? 0)%Z in
  let u := if neg then (- i)%Z else i in
  let a := formatBits 64 u base [] in
  if neg then "-"%char :: a else a.

End strconv.

(** [RandomUser] (types.go, 127-132); [r] is the value [rand.Int63()]
    returns, a non-negative 63-bit integer. *)
Definition RandomUser (r : Z) : User :=
  {| Username := go "dummyUser";
     PassEncrypted := true;
     Password := strconv.FormatInt r 3 |}.

(** A string that neither starts nor ends with a byte of the cutset. *)
Definition trimmed (cutset s : gostring) : Prop :=
  (forall c, head s = Some c -> c ∉ cutset) /\
  (forall c, last s = Some c -> c ∉ cutset).

(** ** The entry forms of the credential grammar

    A token is one field of the raw string.  These predicates say what the
    grammar calls a token, independently of how the parser finds the colon. *)

(** [username:password]: the trimmed token has a first colon, and both
    sides of it are non-empty once tabs and spaces are trimmed. *)
Definition wellFormedEntry (tok : gostring) : Prop :=
  exists before after,
    strings.Trim tok [NL; TAB; SP] = before ++ COLON :: after /\
    (COLON ∉ before) /\
    strings.Trim before [TAB; SP] <> [] /\
    strings.Trim after [TAB; SP] <> [].

(** The user a [username:password] token stands for. *)
Definition entryOf (encrypted : bool) (tok : gostring) (u : User) : Prop :=
  exists before after,
    strings.Trim tok [NL; TAB; SP] = before ++ COLON :: after /\
    (COLON ∉ before) /\
    u = mkUser (strings.Trim before [TAB; SP]) (strings.Trim after [TAB; SP]) encrypted.

(** A colon-delimited token with an empty username or password half. *)
Definition malformedEntry (tok : gostring) : Prop :=
  exists before after,
    strings.Trim tok [NL; TAB; SP] = before ++ COLON :: after /\
    (COLON ∉ before) /\
    (strings.Trim before [TAB; SP] = [] \/ strings.Trim after [TAB; SP] = []).

(** A bare username: something is left after trimming, and no colon in it. *)
Definition bareEntry (tok : gostring) : Prop :=
  strings.Trim tok [NL; TAB; SP] <> [] /\
  COLON ∉ strings.Trim tok [NL; TAB; SP].

(** A username or password as written: non-empty, free of the two
    delimiters, and with no tab or space at either end. *)
Definition plain (s : gostring) : Prop :=
  s <> [] /\ Forall (fun c => splitter c = false) s /\ trimmed [TAB; SP] s.

(** Where a token can sit in the raw string: after the start of the string
    or a delimiter, and before a delimiter or the end of the string. *)
Definition endsAtDelimiter (a : gostring) : Prop :=
  a = [] \/ exists a' c, a = a' ++ [c] /\ splitter c = true.

Definition startsAtDelimiter (b : gostring) : Prop :=
  b = [] \/ exists c b', b = c :: b' /\ splitter c = true.

(** ** Reading a formatted number back

    The value of a digit string in a base, most significant digit first;
    used to state that the placeholder password determines the number it
    was made from. *)
Definition digitValue (c : ascii) : Z := Z.of_nat (nat_of_ascii c) - 48.

Definition valueOf (base : Z) (s : gostring) : Z :=
  foldl (fun acc c => acc * base + digitValue c)%Z 0%Z s.

Definition isDigit (c : ascii) : bool :=
  (48 <=? nat_of_ascii c)%nat && (nat_of_ascii c <=? 57)%nat.

(** ** The sort, read as a function on lists

    [insertBack x rpre] is what [insertDown] makes of the element [x] and
    the part of the slice before it, which is held nearest element first;
    [sortedFrom rpre rest] is what the outer loop makes of the whole. *)
Fixpoint insertBack (x : Service) (rpre : list Service) : list Service :=
  match rpre with
  | [] => [x]
  | y :: rpre' =>
      if stringLess (AclName x) (AclName y) then y :: insertBack x rpre'
      else x :: rpre
  end.

Fixpoint sortedFrom (rpre rest : list Service) : list Service :=
  match rest with
  | [] => reverse rpre
  | x :: rest' => sortedFrom (insertBack x rpre) rest'
  end.

(** ** Writing users back as a credential string

    The inverse direction of the parser, used to state its round trips: a
    user with a password is written [username:password], one without as the
    bare username, and the entries are joined by commas. *)
Definition renderUser (u : User) : gostring :=
  if HasPassword u then Username u ++ COLON :: Password u else Username u.

Fixpoint renderUsers (us : list User) : gostring :=
  match us with
  | [] => []
  | [u] => renderUser u
  | u :: us' => renderUser u ++ COMMA :: renderUsers us'
  end.

(** A user in the form the parser produces: a plain username without
    colon, and a password that is empty or plain. *)
Definition normalUser (u : User) : Prop :=
  plain (Username u) /\ (COLON ∉ Username u) /\
  (Password u = [] \/ plain (Password u)).

(** A token that is not empty once trimmed. *)
Definition nonBlank (tok : gostring) : bool :=
  negb (length (strings.Trim tok [NL; TAB; SP]) =? 0)%nat.

(** What the parser may be given back: a user in normal form, flagged as
    the parser flags it, and with a password if bare usernames are
    refused. *)
Definition acceptableUser (encrypted skipEmptyPassword : bool) (u : User) : Prop :=
  normalUser u /\ PassEncrypted u = encrypted && HasPassword u /\
  (skipEmptyPassword = true -> HasPassword u = true).

(** The offset whose element ends up at offset [k] when the elements at
    [i] and [j] change places. *)
Definition exchanged (i j k : nat) : nat :=
  if decide (k = i) then j else if decide (k = j) then i else k.

(** The two cutsets the parser trims with (types.go 144, 150, 151). *)
Definition parserCutset (cutset : gostring) : Prop :=
  cutset = [NL; TAB; SP] \/ cutset = [TAB; SP].

(** * Properties *)

(** ** Library functions *)
Section strings_facts.
Import strings.

Lemma inCutset_true cutset c : inCutset cutset c = true <-> c ∈ cutset.
Proof. unfold inCutset. by rewrite bool_decide_eq_true. Qed.

Lemma inCutset_false cutset c : inCutset cutset c = false <-> c ∉ cutset.
Proof. unfold inCutset. by rewrite bool_decide_eq_false. Qed.

(** *** FieldsFunc *)

Lemma fieldsFrom_sep f a c b start :
  f c = true ->
  fieldsFrom f (a ++ c :: b) start = fieldsFrom f a start ++ fieldsFrom f b None.
Proof.
  intros Hc. revert start. induction a as [|x a IH]; intros start; simpl.
  - rewrite Hc. by destruct start.
  - destruct (f x), start; simpl; by rewrite ?IH.
Qed.

Lemma fieldsFrom_run f t start :
  Forall (fun c => f c = false) t ->
  fieldsFrom f t start =
    match start with
    | Some w => [w ++ t]
    | None => if t is [] then [] else [t]
    end.
Proof.
  intros Ht. revert start. induction Ht as [|x t Hx Ht IH]; intros start; simpl.
  - destruct start; by rewrite ?app_nil_r.
  - rewrite Hx. destruct start; rewrite IH; by rewrite <- ?app_assoc.
Qed.

Lemma FieldsFunc_sep f a c b :
  f c = true ->
  FieldsFunc (a ++ c :: b) f = FieldsFunc a f ++ FieldsFunc b f.
Proof. apply fieldsFrom_sep. Qed.

Lemma FieldsFunc_run f t :
  t <> [] -> Forall (fun c => f c = false) t -> FieldsFunc t f = [t].
Proof.
  intros Hne Ht. unfold FieldsFunc. rewrite fieldsFrom_run by done.
  by destruct t.
Qed.

Lemma FieldsFunc_nil f : FieldsFunc [] f = [].
Proof. done. Qed.

(** Every field is a non-empty run without separators. *)
Lemma fieldsFrom_fields f s start :
  (forall w, start = Some w -> w <> [] /\ Forall (fun c => f c = false) w) ->
  Forall (fun t => t <> [] /\ Forall (fun c => f c = false) t)
    (fieldsFrom f s start).
Proof.
  revert start. induction s as [|x s IH]; intros start Hst; simpl.
  - destruct start; [|constructor]. by repeat constructor; apply Hst.
  - destruct (f x) eqn:Hx.
    + destruct start as [w|].
      * constructor; [by apply Hst|]. apply IH. by intros ? [=].
      * apply IH. by intros ? [=].
    + destruct start as [w|]; apply IH; intros ? [= <-].
      * destruct (Hst w eq_refl) as [? ?]. split.
        -- by destruct w.
        -- apply Forall_app. by repeat constructor.
      * by repeat constructor.
Qed.

Lemma FieldsFunc_fields f s :
  Forall (fun t => t <> [] /\ Forall (fun c => f c = false) t) (FieldsFunc s f).
Proof. apply fieldsFrom_fields. by intros ? [=]. Qed.

(** *** Trim *)

Lemma TrimLeft_pad cutset w s :
  Forall (fun c => c ∈ cutset) w -> TrimLeft (w ++ s) cutset = TrimLeft s cutset.
Proof.
  induction 1 as [|c w Hc _ IH]; simpl; [done|].
  apply inCutset_true in Hc. by rewrite Hc.
Qed.

Lemma TrimLeft_keep cutset c s :
  c ∉ cutset -> TrimLeft (c :: s) cutset = c :: s.
Proof. intros Hc. simpl. apply inCutset_false in Hc. by rewrite Hc. Qed.

Lemma TrimRight_pad cutset w s :
  Forall (fun c => c ∈ cutset) w -> TrimRight (s ++ w) cutset = TrimRight s cutset.
Proof.
  intros Hw. unfold TrimRight. rewrite reverse_app, TrimLeft_pad; [done|].
  by apply Forall_reverse.
Qed.

Lemma TrimRight_keep cutset c s :
  c ∉ cutset -> TrimRight (s ++ [c]) cutset = s ++ [c].
Proof.
  intros Hc. unfold TrimRight. rewrite reverse_app, reverse_singleton.
  change ([c] ++ reverse s) with (c :: reverse s).
  rewrite (TrimLeft_keep _ _ _ Hc).
  by rewrite reverse_cons, reverse_involutive.
Qed.

Lemma Trim_trimmed cutset s : trimmed cutset s -> Trim s cutset = s.
Proof.
  intros [Hh Hl]. unfold Trim.
  destruct s as [|c s _] using rev_ind; [done|].
  rewrite TrimRight_keep by (apply Hl, last_snoc).
  destruct (s ++ [c]) as [|x r] eqn:E; [done|].
  apply TrimLeft_keep, Hh. done.
Qed.

Lemma Trim_pad cutset w1 s w2 :
  Forall (fun c => c ∈ cutset) w1 -> Forall (fun c => c ∈ cutset) w2 ->
  s <> [] -> trimmed cutset s ->
  Trim (w1 ++ s ++ w2) cutset = s.
Proof.
  intros H1 H2 Hne Hs. unfold Trim.
  rewrite app_assoc, TrimRight_pad by done.
  destruct Hs as [Hh Hl].
  destruct s as [|c s _] using rev_ind; [done|].
  rewrite app_assoc, TrimRight_keep by (apply Hl, last_snoc).
  rewrite <- app_assoc, TrimLeft_pad by done.
  destruct (s ++ [c]) as [|x r] eqn:E; [done|].
  apply TrimLeft_keep, Hh. done.
Qed.

Lemma Trim_all cutset w :
  Forall (fun c => c ∈ cutset) w -> Trim w cutset = [].
Proof.
  intros Hw. unfold Trim.
  rewrite <- (app_nil_l w), TrimRight_pad by done. done.
Qed.

Lemma TrimLeft_suffix cutset s : exists w, s = w ++ TrimLeft s cutset.
Proof.
  induction s as [|c s [w IH]]; simpl; [by exists []|].
  destruct (inCutset cutset c).
  - exists (c :: w). simpl. by rewrite <- IH.
  - by exists [].
Qed.

Lemma TrimLeft_in cutset s c : c ∈ TrimLeft s cutset -> c ∈ s.
Proof.
  destruct (TrimLeft_suffix cutset s) as [w E]. intros Hc.
  rewrite E. apply elem_of_app. by right.
Qed.

Lemma Trim_in cutset s c : c ∈ Trim s cutset -> c ∈ s.
Proof.
  unfold Trim, TrimRight. intros Hc.
  apply TrimLeft_in in Hc. rewrite elem_of_reverse in Hc.
  apply TrimLeft_in in Hc. by rewrite elem_of_reverse in Hc.
Qed.

(** *** Index *)

Lemma Index_range s c : (-1 <= Index s c < Z.of_nat (length s))%Z.
Proof.
  induction s as [|x s IH]; simpl; [lia|].
  case_bool_decide; [lia|]. destruct (Z.ltb_spec (Index s c) 0); lia.
Qed.

Lemma Index_absent s c : c ∉ s -> Index s c = (-1)%Z.
Proof.
  induction s as [|x s IH]; simpl; [done|]. intros Hc.
  apply not_elem_of_cons in Hc as [Hx Hs].
  rewrite bool_decide_eq_false_2 by done. by rewrite IH.
Qed.

Lemma Index_first before c after :
  c ∉ before -> Index (before ++ c :: after) c = Z.of_nat (length before).
Proof.
  induction before as [|x before IH]; simpl; intros Hc.
  - by rewrite bool_decide_eq_true_2.
  - apply not_elem_of_cons in Hc as [Hx Hs].
    rewrite bool_decide_eq_false_2 by done. rewrite IH by done.
    destruct (Z.ltb_spec (Z.of_nat (length before)) 0); lia.
Qed.

Lemma Contains_absent s c : c ∉ s -> Contains s c = false.
Proof. intros Hc. unfold Contains. by rewrite Index_absent. Qed.

Lemma Contains_first before c after :
  c ∉ before -> Contains (before ++ c :: after) c = true.
Proof.
  intros Hc. unfold Contains. rewrite Index_first by done.
  apply Z.leb_le. lia.
Qed.

(** A string that contains [c] splits at the offset [Index] returns. *)
Lemma Contains_split s c :
  Contains s c = true ->
  exists before after, s = before ++ c :: after /\ c ∉ before.
Proof.
  unfold Contains. induction s as [|x s IH]; simpl; [done|].
  case_bool_decide as Hx.
  - subst x. intros _. exists [], s. split; [done|]. apply not_elem_of_nil.
  - destruct (Z.ltb_spec (Index s c) 0) as [Hlt|Hge]; [done|].
    intros _. destruct IH as (before & after & -> & Hb).
    { apply Z.leb_le. lia. }
    exists (x :: before), after. split; [done|].
    apply not_elem_of_cons. done.
Qed.

End strings_facts.

(** ** The credential parser *)
Section parser_facts.
Import strings.
Variables (context : gostring) (encrypted skipEmptyPassword : bool).

Local Abbreviation body := (extractUser context encrypted skipEmptyPassword).

(** The two slice expressions of the colon branch stay inside the token. *)
Lemma colon_index_in_range user :
  Contains user COLON = true ->
  (0 <= Index user COLON /\ Index user COLON + 1 <= Z.of_nat (length user))%Z.
Proof.
  unfold Contains. intros H%Z.leb_le.
  pose proof (Index_range user COLON). lia.
Qed.

Lemma slice_at_colon before after :
  COLON ∉ before ->
  let user := before ++ COLON :: after in
  slice user 0 (Index user COLON) = before /\
  sliceFrom user (Index user COLON + 1) = after.
Proof.
  intros Hb user. subst user. rewrite Index_first by done.
  unfold slice, sliceFrom. split.
  - rewrite Nat2Z.id. change (Z.to_nat 0) with 0%nat.
    rewrite drop_0, Nat.sub_0_r. by rewrite take_app_length.
  - replace (Z.to_nat (Z.of_nat (length before) + 1)) with (S (length before)) by lia.
    change (before ++ COLON :: after) with (before ++ [COLON] ++ after).
    rewrite app_assoc. apply drop_app_length'. rewrite length_app. simpl. lia.
Qed.

(** What one iteration does, by the shape of the trimmed token. *)
Lemma extractUser_blank st user :
  Trim user [NL; TAB; SP] = [] -> body st user = st.
Proof. intros E. unfold extractUser. by rewrite E. Qed.

Lemma extractUser_colon st user before after :
  Trim user [NL; TAB; SP] = before ++ COLON :: after -> COLON ∉ before ->
  body st user =
    if bool_decide (Trim before [TAB; SP] = [] \/ Trim after [TAB; SP] = [])
    then logPrintf 153 invalidUserFormat [context] st
    else appendUser (mkUser (Trim before [TAB; SP]) (Trim after [TAB; SP])
                       encrypted) st.
Proof.
  intros E Hb. unfold extractUser. rewrite E.
  destruct (slice_at_colon before after Hb) as [-> ->].
  rewrite Contains_first by done.
  replace (length (before ++ COLON :: after) =? 0)%nat with false
    by (symmetry; apply Nat.eqb_neq; rewrite length_app; simpl; lia).
  destruct (Trim before [TAB; SP]) as [|u us], (Trim after [TAB; SP]) as [|p ps];
    simpl; try rewrite bool_decide_eq_true_2 by auto; done.
Qed.

Lemma extractUser_bare st user :
  Trim user [NL; TAB; SP] <> [] -> COLON ∉ Trim user [NL; TAB; SP] ->
  body st user =
    if skipEmptyPassword
    then logPrintf 163 noPasswordFormat [context; Trim user [NL; TAB; SP]] st
    else appendUser (mkUser (Trim user [NL; TAB; SP]) [] false) st.
Proof.
  intros Hne Hc. unfold extractUser.
  rewrite Contains_absent by done.
  destruct (Trim user [NL; TAB; SP]) as [|x t]; [done|]. simpl.
  by destruct skipEmptyPassword.
Qed.

(** An iteration only appends to what was collected and printed. *)
Lemma extractUser_appends st user :
  body st user =
    {| collectedUsers := collectedUsers st ++ collectedUsers (body nothing user);
       printed := printed st ++ printed (body nothing user) |}.
Proof.
  destruct st as [us ps]. unfold extractUser.
  repeat (case_match; simpl; rewrite ?app_nil_r; try done).
Qed.

Lemma foldl_extractUser st users :
  foldl body st users =
    {| collectedUsers :=
         collectedUsers st ++ concat (map (fun u => collectedUsers (body nothing u)) users);
       printed :=
         printed st ++ concat (map (fun u => printed (body nothing u)) users) |}.
Proof.
  revert st. induction users as [|u users IH]; intros st; simpl.
  - destruct st. by rewrite !app_nil_r.
  - rewrite IH, (extractUser_appends st u). simpl. by rewrite <- !app_assoc.
Qed.

(** The early return on the empty string agrees with the loop over no
    tokens, so the result is always the loop over the fields. *)
Lemma ExtractUsersFromString_fields usersString :
  ExtractUsersFromString context usersString encrypted skipEmptyPassword =
    foldl body nothing (FieldsFunc usersString splitter).
Proof.
  unfold ExtractUsersFromString. by destruct usersString.
Qed.

Lemma ExtractUsersFromString_users usersString :
  collectedUsers (ExtractUsersFromString context usersString encrypted skipEmptyPassword) =
    concat (map (fun u => collectedUsers (body nothing u))
              (FieldsFunc usersString splitter)).
Proof. by rewrite ExtractUsersFromString_fields, foldl_extractUser. Qed.

Lemma ExtractUsersFromString_printed usersString :
  printed (ExtractUsersFromString context usersString encrypted skipEmptyPassword) =
    concat (map (fun u => printed (body nothing u))
              (FieldsFunc usersString splitter)).
Proof. by rewrite ExtractUsersFromString_fields, foldl_extractUser. Qed.

End parser_facts.

(** Membership of a byte in one of the parser's cutsets, by cases. *)
Ltac byte_cases :=
  set_unfold; unfold NL, TAB, SP, COMMA, COLON in *;
  intuition (subst; try discriminate; try congruence).

(** Closed goals about concrete strings: evaluate, or decide. *)
Ltac by_computation :=
  solve [ vm_compute; done
        | refine (bool_decide_unpack _ _); vm_compute; exact I ].

Section padding.
Import strings.
Variables (context : gostring) (encrypted skipEmptyPassword : bool).

Local Abbreviation run s :=
  (ExtractUsersFromString context s encrypted skipEmptyPassword).

Lemma splitter_true c : splitter c = true <-> c = NL \/ c = COMMA.
Proof.
  unfold splitter. rewrite orb_true_iff, !bool_decide_eq_true. done.
Qed.

Lemma splitter_false c : splitter c = false <-> c <> NL /\ c <> COMMA.
Proof.
  unfold splitter. rewrite orb_false_iff, !bool_decide_eq_false. done.
Qed.

Lemma blank_no_splitter w :
  Forall (fun c => c ∈ [TAB; SP]) w -> Forall (fun c => splitter c = false) w.
Proof.
  intros Hw. eapply Forall_impl; [exact Hw|]. intros c Hc. apply splitter_false.
  split; intros ->; byte_cases.
Qed.

Lemma blank_wider w :
  Forall (fun c => c ∈ [TAB; SP]) w -> Forall (fun c => c ∈ [NL; TAB; SP]) w.
Proof.
  intros Hw. eapply Forall_impl; [exact Hw|]. intros c Hc. byte_cases.
Qed.

(** A field of tabs and spaces leaves the state as it is. *)
Lemma run_blank_field st w :
  Forall (fun c => c ∈ [TAB; SP]) w ->
  foldl (extractUser context encrypted skipEmptyPassword) st
    (FieldsFunc w splitter) = st.
Proof.
  intros Hw. destruct w as [|c w]; [done|].
  rewrite FieldsFunc_run; [|done|by apply blank_no_splitter].
  simpl. apply extractUser_blank, Trim_all. by apply blank_wider.
Qed.

(** Run of a string cut at a delimiter. *)
Lemma run_sep a c b :
  splitter c = true ->
  run (a ++ c :: b) =
    {| collectedUsers := collectedUsers (run a) ++ collectedUsers (run b);
       printed := printed (run a) ++ printed (run b) |}.
Proof.
  intros Hc. rewrite !ExtractUsersFromString_fields.
  rewrite FieldsFunc_sep by done. rewrite !foldl_extractUser. simpl.
  by rewrite map_app, concat_app, map_app, concat_app.
Qed.

Lemma run_blank w :
  Forall (fun c => c ∈ [TAB; SP]) w -> run w = nothing.
Proof.
  intros Hw. rewrite ExtractUsersFromString_fields. by apply run_blank_field.
Qed.

(** Newlines, tabs and spaces around an entry do not change the result,
    if tabs and spaces around it do not. *)
Lemma run_padded core (r : Extraction) :
  (forall pre post,
      Forall (fun c => c ∈ [TAB; SP]) pre -> Forall (fun c => c ∈ [TAB; SP]) post ->
      run (pre ++ core ++ post) = r) ->
  forall w1 w2,
    Forall (fun c => c ∈ [NL; TAB; SP]) w1 -> Forall (fun c => c ∈ [NL; TAB; SP]) w2 ->
    run (w1 ++ core ++ w2) = r.
Proof.
  intros Hbase.
  assert (Hright : forall w2, Forall (fun c => c ∈ [NL; TAB; SP]) w2 ->
    forall pre post,
      Forall (fun c => c ∈ [TAB; SP]) pre -> Forall (fun c => c ∈ [TAB; SP]) post ->
      run (pre ++ core ++ w2 ++ post) = r).
  { induction w2 as [|c w2 IH] using rev_ind; intros Hw2 pre post Hpre Hpost.
    - by apply Hbase.
    - apply Forall_app in Hw2 as [Hw2 Hc]. rewrite Forall_singleton in Hc.
      rewrite <- (app_assoc w2).
      destruct (decide (c = NL)) as [->|Hne].
      + replace (pre ++ core ++ w2 ++ [NL] ++ post)
          with ((pre ++ core ++ w2 ++ []) ++ NL :: post)
          by (by rewrite <- !app_assoc, app_nil_l).
        rewrite run_sep by (by apply splitter_true; left).
        rewrite (IH Hw2 pre []) by (done || constructor).
        rewrite run_blank by done. simpl. destruct r. by rewrite !app_nil_r.
      + apply (IH Hw2 pre ([c] ++ post)); [done|].
        apply Forall_app. split; [|done]. apply Forall_singleton.
        byte_cases. }
  intros w1. induction w1 as [|c w1 IH]; intros w2 Hw1 Hw2.
  - rewrite <- (app_nil_r w2), !app_assoc, <- !app_assoc.
    by apply (Hright w2 Hw2 [] []).
  - assert (Hleft : forall pre, Forall (fun c => c ∈ [TAB; SP]) pre ->
      forall w, Forall (fun c => c ∈ [NL; TAB; SP]) w ->
      run (pre ++ w ++ core ++ w2) = r).
    { clear IH Hw1 c w1. intros pre Hpre w. revert pre Hpre.
      induction w as [|c w IH]; intros pre Hpre Hw.
      - simpl. rewrite <- (app_nil_r w2). by apply Hright.
      - apply Forall_cons in Hw as [Hc Hw].
        destruct (decide (c = NL)) as [->|Hne].
        + change (pre ++ (NL :: w) ++ core ++ w2)
            with (pre ++ NL :: ([] ++ w ++ core ++ w2)).
          rewrite run_sep by (by apply splitter_true; left).
          rewrite run_blank by done. rewrite (IH [] (Forall_nil_2 _) Hw).
          by destruct r.
        + replace (pre ++ (c :: w) ++ core ++ w2)
            with ((pre ++ [c]) ++ w ++ core ++ w2)
            by (by rewrite <- app_assoc).
          apply IH; [|done]. apply Forall_app. split; [done|].
          apply Forall_singleton. byte_cases. }
    by apply (Hleft [] (Forall_nil_2 _) (c :: w1)).
Qed.

(** A padded [username:password] entry, alone in the string. *)
Lemma run_padded_entry u p w1 w2 w3 w4 :
  plain u -> COLON ∉ u -> plain p ->
  Forall (fun c => c ∈ [NL; TAB; SP]) w1 ->
  Forall (fun c => c ∈ [TAB; SP]) w2 ->
  Forall (fun c => c ∈ [TAB; SP]) w3 ->
  Forall (fun c => c ∈ [NL; TAB; SP]) w4 ->
  run (w1 ++ (u ++ w2 ++ COLON :: w3 ++ p) ++ w4) =
    {| collectedUsers := [mkUser u p encrypted]; printed := [] |}.
Proof.
  intros (Hu & Hus & Hut) Huc (Hp & Hps & Hpt) H1 H2 H3 H4.
  apply run_padded; [|done..]. clear w1 w4 H1 H4. intros pre post Hpre Hpost.
  set (core := u ++ w2 ++ COLON :: w3 ++ p).
  assert (Hcore : core <> []) by (unfold core; by destruct u).
  assert (Hsep : Forall (fun c => splitter c = false) core).
  { unfold core. rewrite !Forall_app, Forall_cons, Forall_app.
    repeat split; try done; by apply blank_no_splitter. }
  assert (Htrim : Trim (pre ++ core ++ post) [NL; TAB; SP] = core).
  { apply Trim_pad; [by apply blank_wider..|done|].
    assert (Hnl : forall c, splitter c = false -> c ∉ [TAB; SP] -> c ∉ [NL; TAB; SP]).
    { intros c [Hc _]%splitter_false Hts. byte_cases. }
    destruct Hut as [Huh _], Hpt as [_ Hpl]. split; intros c Hc.
    - unfold core in Hc. destruct u as [|x u]; [done|]. simpl in Hc. injection Hc as <-.
      apply Hnl; [by apply Forall_cons in Hus as [? _]|by apply Huh].
    - unfold core in Hc. rewrite !app_assoc, (app_comm_cons _ _ COLON), app_assoc in Hc.
      destruct p as [|x p _] using rev_ind; [done|].
      rewrite app_assoc, last_snoc in Hc. injection Hc as <-.
      apply Hnl; [by apply Forall_app in Hps as [_ [? _]%Forall_cons]|].
      apply Hpl, last_snoc. }
  rewrite ExtractUsersFromString_fields, FieldsFunc_run; cycle 1.
  { by destruct pre, core. }
  { rewrite !Forall_app. auto using blank_no_splitter. }
  simpl.
  rewrite (extractUser_colon _ _ _ _ _ (u ++ w2) (w3 ++ p)); cycle 1.
  { rewrite Htrim. unfold core. by rewrite <- app_assoc. }
  { rewrite not_elem_of_app. split; [done|]. intros Hc.
    eapply Forall_forall in H2; [|exact Hc]. byte_cases. }
  rewrite <- (app_nil_l (u ++ w2)), (Trim_pad _ [] u w2) by (done || constructor).
  rewrite <- (app_nil_r (w3 ++ p)), <- app_assoc,
    (Trim_pad _ w3 p []) by (done || constructor).
  rewrite bool_decide_eq_false_2 by (by intros [?|?]). done.
Qed.

End padding.

Section tokens.
Import strings.
Variables (context : gostring) (encrypted skipEmptyPassword : bool).

Local Abbreviation run s :=
  (ExtractUsersFromString context s encrypted skipEmptyPassword).
Local Abbreviation body :=
  (extractUser context encrypted skipEmptyPassword).

Lemma FieldsFunc_token a tok b :
  tok <> [] -> Forall (fun c => splitter c = false) tok ->
  endsAtDelimiter a -> startsAtDelimiter b ->
  FieldsFunc (a ++ tok ++ b) splitter =
    FieldsFunc a splitter ++ [tok] ++ FieldsFunc b splitter.
Proof.
  intros Hne Htok Ha Hb.
  assert (Hright : FieldsFunc (tok ++ b) splitter = [tok] ++ FieldsFunc b splitter).
  { destruct Hb as [->|(c & b' & -> & Hc)].
    - rewrite app_nil_r. by rewrite FieldsFunc_run.
    - rewrite FieldsFunc_sep by done. rewrite FieldsFunc_run by done.
      unfold FieldsFunc at 2. simpl. by rewrite Hc. }
  destruct Ha as [->|(a' & c & -> & Hc)]; [done|].
  rewrite <- app_assoc. change ([c] ++ tok ++ b) with (c :: (tok ++ b)).
  rewrite FieldsFunc_sep by done. rewrite Hright.
  rewrite (FieldsFunc_sep _ a' c []) by done. by rewrite app_nil_r.
Qed.

(** A token contributes what one iteration on it yields, wherever it
    sits; the tokens before and after it are parsed as they would be
    alone. *)
Lemma run_token a tok b :
  tok <> [] -> Forall (fun c => splitter c = false) tok ->
  endsAtDelimiter a -> startsAtDelimiter b ->
  run (a ++ tok ++ b) =
    {| collectedUsers :=
         collectedUsers (run a) ++ collectedUsers (body nothing tok)
           ++ collectedUsers (run b);
       printed :=
         printed (run a) ++ printed (body nothing tok) ++ printed (run b) |}.
Proof.
  intros Hne Htok Ha Hb. rewrite !ExtractUsersFromString_fields.
  rewrite FieldsFunc_token by done. rewrite !foldl_extractUser. simpl.
  rewrite !map_app, !concat_app. simpl. by rewrite ?app_nil_r.
Qed.

Lemma bareEntry_nonempty tok : bareEntry tok -> tok <> [].
Proof. by intros [H _] ->. Qed.

Lemma malformedEntry_nonempty tok : malformedEntry tok -> tok <> [].
Proof. intros (before & after & E & _) ->. by destruct before. Qed.

Lemma wellFormedEntry_user tok :
  wellFormedEntry tok ->
  exists u, entryOf encrypted tok u /\
    body nothing tok = {| collectedUsers := [u]; printed := [] |}.
Proof.
  intros (before & after & E & Hc & Hu & Hp).
  exists (mkUser (Trim before [TAB; SP]) (Trim after [TAB; SP]) encrypted).
  split; [by exists before, after|].
  rewrite (extractUser_colon _ _ _ _ _ before after) by done.
  rewrite bool_decide_eq_false_2 by (by intros [?|?]). done.
Qed.

(** A bare username, padded, alone in the string. *)
Lemma run_padded_bare u w1 w2 :
  plain u -> COLON ∉ u ->
  Forall (fun c => c ∈ [NL; TAB; SP]) w1 ->
  Forall (fun c => c ∈ [NL; TAB; SP]) w2 ->
  run (w1 ++ u ++ w2) =
    if skipEmptyPassword
    then {| collectedUsers := [];
            printed := [mkLogCall 163 noPasswordFormat [context; u]] |}
    else {| collectedUsers := [mkUser u [] false]; printed := [] |}.
Proof.
  intros (Hu & Hus & [Huh Hul]) Huc H1 H2.
  apply run_padded; [|done..]. clear w1 w2 H1 H2. intros pre post Hpre Hpost.
  assert (Htrim : Trim (pre ++ u ++ post) [NL; TAB; SP] = u).
  { apply Trim_pad; [by apply blank_wider..|done|].
    split; intros c Hc.
    - assert (c ∈ u) as Hin by (destruct u; [done|]; injection Hc as <-; left).
      eapply Forall_forall in Hus; [|exact Hin].
      apply splitter_false in Hus as [? _]. specialize (Huh c Hc). byte_cases.
    - assert (c ∈ u) as Hin.
      { destruct u as [|x u _] using rev_ind; [done|].
        rewrite last_snoc in Hc. injection Hc as <-.
        apply elem_of_app. right. left. }
      eapply Forall_forall in Hus; [|exact Hin].
      apply splitter_false in Hus as [? _]. specialize (Hul c Hc). byte_cases. }
  rewrite ExtractUsersFromString_fields, FieldsFunc_run; cycle 1.
  { by destruct pre, u. }
  { rewrite !Forall_app. auto using blank_no_splitter. }
  simpl. rewrite extractUser_bare; by rewrite Htrim.
Qed.

End tokens.

(** ** The claims about [ExtractUsersFromString] *)

(** C1.  When every token of the raw string is a well-formed
    [username:password] entry, the parser returns one user per token, in the
    order of the tokens and without removing duplicates, each with the
    token's username and password and the [encrypted] argument as its flag,
    and prints nothing.  In particular "alice:secret,bob:pw2\ncarol:pw3"
    with encrypted=false gives alice, bob and carol in that order. *)
Theorem C1_one_user_per_well_formed_token :
  (forall context usersString encrypted skipEmptyPassword,
      Forall wellFormedEntry (strings.FieldsFunc usersString splitter) ->
      Forall2 (entryOf encrypted) (strings.FieldsFunc usersString splitter)
        (collectedUsers
           (ExtractUsersFromString context usersString encrypted skipEmptyPassword))
      /\ printed
           (ExtractUsersFromString context usersString encrypted skipEmptyPassword) = [])
  /\ (forall context skipEmptyPassword,
      collectedUsers
        (ExtractUsersFromString context
           (go "alice:secret,bob:pw2" ++ NL :: go "carol:pw3") false skipEmptyPassword)
      = [mkUser (go "alice") (go "secret") false;
         mkUser (go "bob") (go "pw2") false;
         mkUser (go "carol") (go "pw3") false]).
Proof.
  split.
  - intros context usersString encrypted skipEmptyPassword Hwf.
    rewrite ExtractUsersFromString_users, ExtractUsersFromString_printed.
    induction Hwf as [|tok toks Htok _ [IHu IHp]]; simpl; [by split; constructor|].
    destruct (wellFormedEntry_user context encrypted skipEmptyPassword tok Htok)
      as (u & Hu & ->).
    simpl. split; [by constructor|done].
  - intros context skipEmptyPassword. by destruct skipEmptyPassword; vm_compute.
Qed.

Lemma C1_witness :
  let raw := go "bob:pw2,bob:pw2,al:x:y" in
  Forall wellFormedEntry (strings.FieldsFunc raw splitter) /\
  Forall2 (entryOf true) (strings.FieldsFunc raw splitter)
    (collectedUsers (ExtractUsersFromString (go "svc") raw true false)).
Proof.
  assert (H : Forall wellFormedEntry
                (strings.FieldsFunc (go "bob:pw2,bob:pw2,al:x:y") splitter)).
  { repeat constructor.
    - exists (go "bob"), (go "pw2"). repeat split; by_computation.
    - exists (go "bob"), (go "pw2"). repeat split; by_computation.
    - exists (go "al"), (go "x:y"). repeat split; by_computation. }
  split; [exact H|].
  exact (proj1 (proj1 C1_one_user_per_well_formed_token
                  (go "svc") (go "bob:pw2,bob:pw2,al:x:y") true false H)).
Defined.

(** C2, as the code has it.  A bare username (a token that is not empty
    after trimming and holds no colon), parsed with skipEmptyPassword=false,
    contributes exactly one user, at its place among the users of the tokens
    around it: the username is the trimmed token, the password is empty,
    and the flag is false whatever the [encrypted] argument is; nothing is
    printed for it. *)
Theorem C2_bare_username_flag_false :
  forall context encrypted a tok b,
    Forall (fun c => splitter c = false) tok -> bareEntry tok ->
    endsAtDelimiter a -> startsAtDelimiter b ->
    ExtractUsersFromString context (a ++ tok ++ b) encrypted false =
      {| collectedUsers :=
           collectedUsers (ExtractUsersFromString context a encrypted false)
             ++ [mkUser (strings.Trim tok [NL; TAB; SP]) [] false]
             ++ collectedUsers (ExtractUsersFromString context b encrypted false);
         printed :=
           printed (ExtractUsersFromString context a encrypted false)
             ++ printed (ExtractUsersFromString context b encrypted false) |}.
Proof.
  intros context encrypted a tok b Hsep Hbare Ha Hb.
  rewrite run_token by (done || by apply bareEntry_nonempty).
  destruct Hbare as [Hne Hc]. by rewrite extractUser_bare.
Qed.

Lemma C2_witness :
  ExtractUsersFromString (go "svc") (go "al:pw, eve ,bob:x") true false =
    {| collectedUsers :=
         [mkUser (go "al") (go "pw") true; mkUser (go "eve") [] false;
          mkUser (go "bob") (go "x") true];
       printed := [] |}.
Proof.
  assert (Hsep : Forall (fun c => splitter c = false) (go " eve ")).
  { by repeat constructor. }
  assert (Hbare : bareEntry (go " eve ")).
  { split; by_computation. }
  assert (Ha : endsAtDelimiter (go "al:pw,")).
  { right. by exists (go "al:pw"), COMMA. }
  assert (Hb : startsAtDelimiter (go ",bob:x")).
  { right. by exists COMMA, (go "bob:x"). }
  exact (C2_bare_username_flag_false (go "svc") true _ _ _ Hsep Hbare Ha Hb).
Defined.

(** C2 as the spec words it asks for the [encrypted] argument as the flag
    of a bare username; with encrypted=true the user comes out with
    PassEncrypted=false. *)
Lemma C2_counterexample :
  collectedUsers (ExtractUsersFromString (go "svc") (go "eve") true false)
    = [mkUser (go "eve") [] false]
  /\ collectedUsers (ExtractUsersFromString (go "svc") (go "eve") true false)
    <> [mkUser (go "eve") [] true].
Proof. split; by vm_compute. Qed.

(** C3.  Parsing is fail-soft.  A colon-delimited token with an empty
    username or password half is dropped with the invalid-user diagnostic,
    and a bare username is dropped with the no-password diagnostic when
    skipEmptyPassword is true; in both cases the tokens before and after it
    are parsed as they would be without it.  In particular "dave:,:pw,eve"
    with skipEmptyPassword=true gives no user. *)
Theorem C3_fail_soft :
  (forall context encrypted skipEmptyPassword a tok b,
      Forall (fun c => splitter c = false) tok -> malformedEntry tok ->
      endsAtDelimiter a -> startsAtDelimiter b ->
      ExtractUsersFromString context (a ++ tok ++ b) encrypted skipEmptyPassword =
        {| collectedUsers :=
             collectedUsers
               (ExtractUsersFromString context a encrypted skipEmptyPassword)
             ++ collectedUsers
                  (ExtractUsersFromString context b encrypted skipEmptyPassword);
           printed :=
             printed (ExtractUsersFromString context a encrypted skipEmptyPassword)
             ++ [mkLogCall 153 invalidUserFormat [context]]
             ++ printed
                  (ExtractUsersFromString context b encrypted skipEmptyPassword) |})
  /\ (forall context encrypted a tok b,
      Forall (fun c => splitter c = false) tok -> bareEntry tok ->
      endsAtDelimiter a -> startsAtDelimiter b ->
      ExtractUsersFromString context (a ++ tok ++ b) encrypted true =
        {| collectedUsers :=
             collectedUsers (ExtractUsersFromString context a encrypted true)
             ++ collectedUsers (ExtractUsersFromString context b encrypted true);
           printed :=
             printed (ExtractUsersFromString context a encrypted true)
             ++ [mkLogCall 163 noPasswordFormat
                   [context; strings.Trim tok [NL; TAB; SP]]]
             ++ printed (ExtractUsersFromString context b encrypted true) |})
  /\ (forall context,
      ExtractUsersFromString context (go "dave:,:pw,eve") false true =
        {| collectedUsers := [];
           printed := [mkLogCall 153 invalidUserFormat [context];
                       mkLogCall 153 invalidUserFormat [context];
                       mkLogCall 163 noPasswordFormat [context; go "eve"]] |}).
Proof.
  split; [|split].
  - intros context encrypted skipEmptyPassword a tok b Hsep Hbad Ha Hb.
    rewrite run_token by (done || by apply malformedEntry_nonempty).
    destruct Hbad as (before & after & E & Hc & Hempty).
    rewrite (extractUser_colon _ _ _ _ _ before after) by done.
    by rewrite bool_decide_eq_true_2.
  - intros context encrypted a tok b Hsep Hbare Ha Hb.
    rewrite run_token by (done || by apply bareEntry_nonempty).
    destruct Hbare as [Hne Hc]. by rewrite extractUser_bare.
  - intros context. by vm_compute.
Qed.

Lemma C3_witness :
  ExtractUsersFromString (go "svc") (go "al:pw,dave: ,bob:x") false false =
    {| collectedUsers := [mkUser (go "al") (go "pw") false;
                          mkUser (go "bob") (go "x") false];
       printed := [mkLogCall 153 invalidUserFormat [go "svc"]] |}
  /\ ExtractUsersFromString (go "svc") (go "al:pw,eve,bob:x") false true =
    {| collectedUsers := [mkUser (go "al") (go "pw") false;
                          mkUser (go "bob") (go "x") false];
       printed := [mkLogCall 163 noPasswordFormat [go "svc"; go "eve"]] |}.
Proof.
  assert (Ha : endsAtDelimiter (go "al:pw,")).
  { right. by exists (go "al:pw"), COMMA. }
  assert (Hb : startsAtDelimiter (go ",bob:x")).
  { right. by exists COMMA, (go "bob:x"). }
  split.
  - assert (Hsep : Forall (fun c => splitter c = false) (go "dave: ")).
    { by repeat constructor. }
    assert (Hbad : malformedEntry (go "dave: ")).
    { exists (go "dave"), []. repeat split; [by_computation..|]. right. by_computation. }
    exact (proj1 C3_fail_soft (go "svc") false false _ _ _ Hsep Hbad Ha Hb).
  - assert (Hsep : Forall (fun c => splitter c = false) (go "eve")).
    { by repeat constructor. }
    assert (Hbare : bareEntry (go "eve")).
    { split; by_computation. }
    exact (proj1 (proj2 C3_fail_soft) (go "svc") false _ _ _ Hsep Hbare Ha Hb).
Defined.

(** C5.  A trimmed token that contains a colon is split at its first colon
    only: the username is what stands before the first colon and the
    password all that stands after it, each trimmed of tab and space; the
    user is kept when both are non-empty.  So a password that holds colons
    comes out whole. *)
Theorem C5_split_at_first_colon :
  (forall context encrypted skipEmptyPassword st user,
      strings.Contains (strings.Trim user [NL; TAB; SP]) COLON = true ->
      exists before after,
        strings.Trim user [NL; TAB; SP] = before ++ COLON :: after /\
        (COLON ∉ before) /\
        extractUser context encrypted skipEmptyPassword st user =
          if bool_decide (strings.Trim before [TAB; SP] = [] \/
                          strings.Trim after [TAB; SP] = [])
          then logPrintf 153 invalidUserFormat [context] st
          else appendUser (mkUser (strings.Trim before [TAB; SP])
                             (strings.Trim after [TAB; SP]) encrypted) st)
  /\ (forall context encrypted skipEmptyPassword u p,
      plain u -> COLON ∉ u -> plain p ->
      ExtractUsersFromString context (u ++ COLON :: p) encrypted skipEmptyPassword =
        {| collectedUsers := [mkUser u p encrypted]; printed := [] |}).
Proof.
  split.
  - intros context encrypted skipEmptyPassword st user Hcolon.
    destruct (Contains_split _ _ Hcolon) as (before & after & E & Hb).
    exists before, after. split; [done|]. split; [done|].
    by apply extractUser_colon.
  - intros context encrypted skipEmptyPassword u p Hu Hc Hp.
    pose proof (run_padded_entry context encrypted skipEmptyPassword
                  u p [] [] [] []) as H.
    simpl in H. rewrite !app_nil_r in H. apply H; done || constructor.
Qed.

Lemma C5_witness :
  ExtractUsersFromString (go "svc") (go "al:pa:ss:wd") true false =
    {| collectedUsers := [mkUser (go "al") (go "pa:ss:wd") true]; printed := [] |}
  /\ exists before after,
      strings.Trim (go " al:pa:ss:wd ") [NL; TAB; SP] = before ++ COLON :: after /\
      (COLON ∉ before) /\
      extractUser (go "svc") true false nothing (go " al:pa:ss:wd ") =
        if bool_decide (strings.Trim before [TAB; SP] = [] \/
                        strings.Trim after [TAB; SP] = [])
        then logPrintf 153 invalidUserFormat [go "svc"] nothing
        else appendUser (mkUser (strings.Trim before [TAB; SP])
                           (strings.Trim after [TAB; SP]) true) nothing.
Proof.
  split.
  - assert (Hu : plain (go "al")).
    { repeat split; [done|by repeat constructor|..]; intros c [= <-]; by_computation. }
    assert (Hp : plain (go "pa:ss:wd")).
    { repeat split; [done|by repeat constructor|..]; intros c [= <-]; by_computation. }
    assert (Hc : COLON ∉ go "al") by by_computation.
    exact (proj2 C5_split_at_first_colon (go "svc") true false _ _ Hu Hc Hp).
  - apply (proj1 C5_split_at_first_colon). by_computation.
Defined.

(** C6.  Newlines, tabs and spaces around a token, and tabs and spaces
    around its username and password halves, are trimmed away: an entry
    written with such padding parses to the same user as the entry written
    without it, for a [username:password] entry and for a bare username.
    In particular "  frank : pw4  " gives exactly frank with pw4. *)
Theorem C6_trimming :
  (forall context encrypted skipEmptyPassword u p w1 w2 w3 w4,
      plain u -> COLON ∉ u -> plain p ->
      Forall (fun c => c ∈ [NL; TAB; SP]) w1 ->
      Forall (fun c => c ∈ [TAB; SP]) w2 ->
      Forall (fun c => c ∈ [TAB; SP]) w3 ->
      Forall (fun c => c ∈ [NL; TAB; SP]) w4 ->
      ExtractUsersFromString context
        (w1 ++ (u ++ w2 ++ COLON :: w3 ++ p) ++ w4) encrypted skipEmptyPassword =
        {| collectedUsers := [mkUser u p encrypted]; printed := [] |})
  /\ (forall context encrypted u w1 w2,
      plain u -> COLON ∉ u ->
      Forall (fun c => c ∈ [NL; TAB; SP]) w1 ->
      Forall (fun c => c ∈ [NL; TAB; SP]) w2 ->
      ExtractUsersFromString context (w1 ++ u ++ w2) encrypted false =
        {| collectedUsers := [mkUser u [] false]; printed := [] |})
  /\ (forall context,
      ExtractUsersFromString context (go "  frank : pw4  ") false false =
        {| collectedUsers := [mkUser (go "frank") (go "pw4") false];
           printed := [] |}).
Proof.
  split; [|split].
  - intros. by apply run_padded_entry.
  - intros context encrypted u w1 w2 Hu Hc H1 H2.
    by rewrite (run_padded_bare context encrypted false).
  - intros context. by vm_compute.
Qed.

Lemma C6_witness :
  ExtractUsersFromString (go "svc")
    ([NL; SP] ++ (go "frank" ++ [TAB] ++ COLON :: [SP; SP] ++ go "pw 4") ++ [TAB; NL; SP])
    true true =
    {| collectedUsers := [mkUser (go "frank") (go "pw 4") true]; printed := [] |}
  /\ ExtractUsersFromString (go "svc") ([SP; NL; TAB] ++ go "eve" ++ [SP; NL]) true false =
    {| collectedUsers := [mkUser (go "eve") [] false]; printed := [] |}.
Proof.
  assert (Hu : plain (go "frank")).
  { repeat split; [done|by repeat constructor|..]; intros c [= <-]; by_computation. }
  assert (Hp : plain (go "pw 4")).
  { repeat split; [done|by repeat constructor|..]; intros c [= <-]; by_computation. }
  assert (He : plain (go "eve")).
  { repeat split; [done|by repeat constructor|..]; intros c [= <-]; by_computation. }
  split.
  - apply (proj1 C6_trimming); try done; try by_computation.
  - apply (proj1 (proj2 C6_trimming)); try done; by_computation.
Defined.

(** C9.  Whatever the context, the raw string and the two flags, every user
    in the returned sequence has a non-empty username. *)
Theorem C9_usernames_non_empty :
  forall context usersString encrypted skipEmptyPassword,
    Forall (fun u => Username u <> [])
      (collectedUsers
         (ExtractUsersFromString context usersString encrypted skipEmptyPassword)).
Proof.
  intros context usersString encrypted skipEmptyPassword.
  rewrite ExtractUsersFromString_users.
  apply Forall_concat, Forall_map, Forall_forall. intros user _.
  unfold extractUser.
  repeat (case_match; simpl; try by constructor).
  all: repeat constructor; simpl; intros E;
    repeat match goal with
           | H : (length _ =? 0)%nat || _ = false |- _ =>
               apply orb_false_iff in H as [? ?]
           | H : (length ?l =? 0)%nat = false |- _ => rewrite E in H; discriminate H
           end.
Qed.

(** C10.  The diagnostic of the no-colon branch for an empty token (the
    [len(user) == 0] test at line 159, printing at line 160) is never
    reached: no input makes the parser print from that line, since a token
    that trims to the empty string is skipped before the colon test. *)
Theorem C10_empty_bare_branch_unreachable :
  forall context usersString encrypted skipEmptyPassword,
    Forall (fun call => logLine call <> 160)
      (printed
         (ExtractUsersFromString context usersString encrypted skipEmptyPassword)).
Proof.
  intros context usersString encrypted skipEmptyPassword.
  rewrite ExtractUsersFromString_printed.
  apply Forall_concat, Forall_map, Forall_forall. intros user _.
  unfold extractUser.
  destruct (length (strings.Trim user [NL; TAB; SP]) =? 0)%nat eqn:Hlen;
    [by constructor|].
  repeat (case_match; simpl; try by repeat constructor).
Qed.

(** ** The placeholder user *)
Section placeholder.
Import strconv.

Lemma digit_ternary r :
  (0 <= r < 3)%Z ->
  digit r ∈ go "012" /\ digitValue (digit r) = r /\ isDigit (digit r) = true.
Proof.
  intros Hr.
  assert (r = 0 \/ r = 1 \/ r = 2)%Z as [->|[->| ->]] by lia;
    (split; [by_computation|by vm_compute]).
Qed.

Lemma valueOf_snoc base ds c :
  valueOf base (ds ++ [c]) = (valueOf base ds * base + digitValue c)%Z.
Proof. unfold valueOf. by rewrite foldl_app. Qed.

(** With room for the digits of [u], the loop writes them in front of
    what the buffer already holds. *)
Lemma formatBits_ternary room u a :
  (0 <= u < 3 ^ Z.of_nat room)%Z ->
  exists ds,
    formatBits (S room) u 3 a = ds ++ a /\ ds <> [] /\
    Forall (fun c => isDigit c = true) ds /\ valueOf 3 ds = u.
Proof.
  revert u a. induction room as [|room IH]; intros u a Hu.
  - assert (u = 0%Z) as -> by (simpl in Hu; lia).
    exists [digit 0]. repeat split; [done|by repeat constructor].
  - remember (S room) as room1 eqn:Hroom. simpl formatBits. subst room1.
    destruct (Z.leb_spec 3 u) as [Hge|Hlt].
    + assert (Hq : (0 <= u / 3 < 3 ^ Z.of_nat room)%Z).
      { rewrite Nat2Z.inj_succ, Z.pow_succ_r in Hu by lia.
        split; [apply Z.div_pos; lia|]. apply Z.div_lt_upper_bound; lia. }
      assert (Hr : (0 <= u - u / 3 * 3 < 3)%Z).
      { pose proof (Z.mod_pos_bound u 3 ltac:(lia)).
        pose proof (Z.div_mod u 3 ltac:(lia)). lia. }
      destruct (IH (u / 3)%Z (digit (u - u / 3 * 3) :: a) Hq)
        as (ds & -> & Hne & Hds & Hval).
      destruct (digit_ternary _ Hr) as (_ & Hdv & Hdd).
      exists (ds ++ [digit (u - u / 3 * 3)]). repeat split.
      * by rewrite <- app_assoc.
      * by destruct ds.
      * apply Forall_app. by repeat constructor.
      * rewrite valueOf_snoc, Hval, Hdv. lia.
    + destruct (digit_ternary u ltac:(lia)) as (_ & Hdv & Hdd).
      exists [digit u]. repeat split; [done|by repeat constructor|].
      unfold valueOf. simpl. lia.
Qed.

Lemma FormatInt_ternary r :
  (0 <= r < 2 ^ 63)%Z ->
  FormatInt r 3 <> [] /\
  Forall (fun c => isDigit c = true) (FormatInt r 3) /\
  valueOf 3 (FormatInt r 3) = r.
Proof.
  intros Hr. unfold FormatInt.
  destruct (Z.ltb_spec r 0) as [?|_]; [lia|].
  change 64%nat with (S 63).
  destruct (formatBits_ternary 63 r []) as (ds & -> & Hne & Hds & Hval).
  { split; [lia|]. eapply Z.lt_trans; [apply Hr|]. by vm_compute. }
  by rewrite app_nil_r.
Qed.

End placeholder.

(** C7.  For every value the random source can return, the placeholder
    user has the fixed username "dummyUser", is flagged as encrypted, and
    has a non-empty password made of decimal digits only.  Two placeholder
    passwords are equal only when the random source returned the same
    number twice, so repeated calls collide exactly as often as the
    source does. *)
Theorem C7_placeholder_user :
  forall r, (0 <= r < 2 ^ 63)%Z ->
    Username (RandomUser r) = go "dummyUser" /\
    PassEncrypted (RandomUser r) = true /\
    Password (RandomUser r) <> [] /\
    Forall (fun c => isDigit c = true) (Password (RandomUser r)) /\
    (forall r', (0 <= r' < 2 ^ 63)%Z ->
       Password (RandomUser r) = Password (RandomUser r') -> r = r').
Proof.
  intros r Hr. destruct (FormatInt_ternary r Hr) as (Hne & Hds & Hval).
  repeat split; try done.
  intros r' Hr' E. simpl in E.
  destruct (FormatInt_ternary r' Hr') as (_ & _ & Hval').
  rewrite <- Hval, <- Hval'. by rewrite E.
Qed.

Lemma C7_witness :
  Username (RandomUser 1000) = go "dummyUser" /\
  PassEncrypted (RandomUser 1000) = true /\
  Password (RandomUser 1000) <> [] /\
  Forall (fun c => isDigit c = true) (Password (RandomUser 1000)) /\
  (forall r', (0 <= r' < 2 ^ 63)%Z ->
     Password (RandomUser 1000) = Password (RandomUser r') -> 1000%Z = r').
Proof. apply (C7_placeholder_user 1000). by vm_compute. Defined.

Example RandomUser_1000 : Password (RandomUser 1000) = go "1101001".
Proof. by vm_compute. Qed.

(** ** Construction of a service descriptor *)



(** ** The order of ACLs *)
Section ordering.

Lemma stringLess_irrefl a : stringLess a a = false.
Proof.
  induction a as [|x a IH]; simpl; [done|].
  by rewrite Nat.ltb_irrefl.
Qed.

Lemma stringLess_asym a b : stringLess a b = true -> stringLess b a = false.
Proof.
  revert b. induction a as [|x a IH]; intros [|y b]; simpl; try done.
  destruct (Nat.ltb_spec (nat_of_ascii x) (nat_of_ascii y)),
           (Nat.ltb_spec (nat_of_ascii y) (nat_of_ascii x));
    try done; try lia. apply IH.
Qed.

(** Two strings neither of which is before the other are the same. *)
Lemma stringLess_neither a b :
  stringLess a b = false -> stringLess b a = false -> a = b.
Proof.
  revert b. induction a as [|x a IH]; intros [|y b]; simpl; try done.
  destruct (Nat.ltb_spec (nat_of_ascii x) (nat_of_ascii y)),
           (Nat.ltb_spec (nat_of_ascii y) (nat_of_ascii x));
    try done; try lia.
  intros Hab Hba. f_equal; [|by apply IH].
  rewrite <- (ascii_nat_embedding x), <- (ascii_nat_embedding y).
  f_equal. lia.
Qed.

(** "Not after" is transitive. *)
Lemma stringLess_false_trans a b c :
  stringLess b a = false -> stringLess c b = false -> stringLess c a = false.
Proof.
  revert b c. induction a as [|x a IH]; intros [|y b] [|z c]; simpl; try done.
  destruct (Nat.ltb_spec (nat_of_ascii y) (nat_of_ascii x)),
           (Nat.ltb_spec (nat_of_ascii x) (nat_of_ascii y)),
           (Nat.ltb_spec (nat_of_ascii z) (nat_of_ascii y)),
           (Nat.ltb_spec (nat_of_ascii y) (nat_of_ascii z)),
           (Nat.ltb_spec (nat_of_ascii z) (nat_of_ascii x)),
           (Nat.ltb_spec (nat_of_ascii x) (nat_of_ascii z));
    try done; try lia. apply IH.
Qed.

(** [stringLess] is the lexicographic order on bytes: [a] is a proper
    prefix of [b], or they first differ at a byte that is smaller in
    [a]. *)
Lemma stringLess_lexicographic a b :
  stringLess a b = true <->
  (exists c s, b = a ++ c :: s) \/
  (exists common x y a' b',
      a = common ++ x :: a' /\ b = common ++ y :: b' /\
      (nat_of_ascii x < nat_of_ascii y)%nat).
Proof.
  split.
  - revert b. induction a as [|x a IH]; intros [|y b]; simpl; try done.
    + intros _. left. by exists y, b.
    + destruct (Nat.ltb_spec (nat_of_ascii x) (nat_of_ascii y)) as [Hlt|Hge].
      { intros _. right. by exists [], x, y, a, b. }
      destruct (Nat.ltb_spec (nat_of_ascii y) (nat_of_ascii x)) as [?|Hle];
        [done|].
      assert (x = y) as <-.
      { rewrite <- (ascii_nat_embedding x), <- (ascii_nat_embedding y).
        f_equal. lia. }
      intros [(c & s & ->)|(common & x' & y' & a' & b' & -> & -> & Hlt)]%IH.
      * left. by exists c, s.
      * right. by exists (x :: common), x', y', a', b'.
  - intros [(c & s & ->)|(common & x & y & a' & b' & -> & -> & Hlt)].
    + induction a as [|x a IH]; simpl; [done|].
      by rewrite Nat.ltb_irrefl.
    + induction common as [|z common IH]; simpl.
      * by apply Nat.ltb_lt in Hlt as ->.
      * by rewrite Nat.ltb_irrefl.
Qed.

#[global] Instance aclLe_trans : Transitive aclLe.
Proof.
  intros a b c Hab Hbc. unfold aclLe in *.
  by apply (stringLess_false_trans _ (AclName b)).
Qed.

#[global] Instance aclLe_refl : Reflexive aclLe.
Proof. intros a. apply stringLess_irrefl. Qed.

Lemma aclLe_total a b : aclLe a b \/ aclLe b a.
Proof.
  unfold aclLe. destruct (stringLess (AclName b) (AclName a)) eqn:E; [|by left].
  right. by apply stringLess_asym.
Qed.

End ordering.

(** ** Sorting by ACL name *)
Section sorting.

Lemma length_insertBack x rpre : length (insertBack x rpre) = S (length rpre).
Proof.
  induction rpre as [|y rpre IH]; simpl; [done|].
  case_match; simpl; by rewrite ?IH.
Qed.

Lemma insertBack_Permutation x rpre : insertBack x rpre ≡ₚ x :: rpre.
Proof.
  induction rpre as [|y rpre IH]; simpl; [done|].
  case_match; [|done]. rewrite IH. apply Permutation_swap.
Qed.

Lemma sortedFrom_Permutation rpre rest : sortedFrom rpre rest ≡ₚ rpre ++ rest.
Proof.
  revert rpre. induction rest as [|x rest IH]; intros rpre; simpl.
  - by rewrite reverse_Permutation, app_nil_r.
  - rewrite IH, insertBack_Permutation. apply Permutation_middle.
Qed.

(** The inner loop: [x] at offset [length rpre] sinks to its place. *)
Lemma insertDown_insertBack rpre x post :
  insertDown (reverse rpre ++ x :: post) (length rpre) =
    Some (reverse (insertBack x rpre) ++ post).
Proof.
  revert post. induction rpre as [|y rpre IH]; intros post; [done|].
  simpl insertDown. simpl insertBack. rewrite reverse_cons, <- app_assoc.
  change ([y] ++ x :: post) with (y :: x :: post).
  assert (Hx : (reverse rpre ++ y :: x :: post) !! S (length rpre) = Some x).
  { change (y :: x :: post) with ([y] ++ x :: post). rewrite app_assoc.
    apply list_lookup_middle. rewrite length_app, length_reverse. simpl. lia. }
  assert (Hy : (reverse rpre ++ y :: x :: post) !! length rpre = Some y).
  { apply list_lookup_middle. by rewrite length_reverse. }
  unfold Less, Swap. rewrite Hx, Hy. simpl.
  destruct (stringLess (AclName x) (AclName y)); simpl.
  - rewrite (insert_app_r_alt _ _ (S (length rpre))) by (rewrite length_reverse; lia).
    rewrite (insert_app_r_alt _ _ (length rpre)) by (rewrite length_reverse; lia).
    rewrite length_reverse.
    replace (S (length rpre) - length rpre)%nat with 1%nat by lia.
    rewrite Nat.sub_diag. simpl.
    rewrite IH. by rewrite reverse_cons, <- app_assoc.
  - by rewrite !reverse_cons, <- !app_assoc.
Qed.

(** The outer loop, started with the first [length rpre] elements in
    order. *)
Lemma insertionSortFrom_sortedFrom rest rpre :
  insertionSortFrom (length rest) (length rpre) (reverse rpre ++ rest) =
    Some (sortedFrom rpre rest).
Proof.
  revert rpre. induction rest as [|x rest IH]; intros rpre; simpl.
  - by rewrite app_nil_r.
  - rewrite insertDown_insertBack. simpl.
    rewrite <- (length_insertBack x rpre). apply IH.
Qed.

Lemma sortByAclName_sortedFrom data :
  sortByAclName data = Some (sortedFrom [] data).
Proof.
  unfold sortByAclName, Len. destruct data as [|x rest]; [done|].
  simpl. rewrite Nat.sub_0_r.
  apply (insertionSortFrom_sortedFrom rest [x]).
Qed.

Lemma insertBack_sorted x rpre :
  StronglySorted aclLe (reverse rpre) ->
  StronglySorted aclLe (reverse (insertBack x rpre)).
Proof.
  induction rpre as [|y rpre IH]; simpl; [by repeat constructor|].
  rewrite reverse_cons. intros Hs.
  apply StronglySorted_app in Hs as (Hy & Hs & _).
  destruct (stringLess (AclName x) (AclName y)) eqn:E.
  - rewrite reverse_cons. apply StronglySorted_app_2.
    + intros z ? Hz ->%list_elem_of_singleton.
      rewrite elem_of_reverse, insertBack_Permutation in Hz.
      apply elem_of_cons in Hz as [->|Hz].
      * by apply stringLess_asym.
      * apply Hy; [by apply elem_of_reverse|by left].
    + by apply IH.
    + by repeat constructor.
  - rewrite !reverse_cons. apply StronglySorted_app_2.
    + intros z ? Hz ->%list_elem_of_singleton.
      apply elem_of_app in Hz as [Hz| ->%list_elem_of_singleton]; [|done].
      transitivity y; [|done]. apply Hy; [done|by left].
    + apply StronglySorted_app_2; [done..|by repeat constructor].
    + by repeat constructor.
Qed.

Lemma sortedFrom_sorted rpre rest :
  StronglySorted aclLe (reverse rpre) ->
  StronglySorted aclLe (sortedFrom rpre rest).
Proof.
  revert rpre. induction rest as [|x rest IH]; intros rpre Hs; simpl; [done|].
  by apply IH, insertBack_sorted.
Qed.

(** On a slice that is in order nothing moves. *)
Lemma sortedFrom_fixed rpre rest :
  StronglySorted aclLe (reverse rpre ++ rest) ->
  sortedFrom rpre rest = reverse rpre ++ rest.
Proof.
  revert rpre. induction rest as [|x rest IH]; intros rpre Hs; simpl.
  - by rewrite app_nil_r.
  - assert (insertBack x rpre = x :: rpre) as ->.
    { destruct rpre as [|y rpre]; [done|]. simpl.
      assert (aclLe y x) as ->; [|done].
      apply (StronglySorted_app_1_elem_of _ _ _ _ _ Hs).
      - rewrite reverse_cons. apply elem_of_app. right. by left.
      - by left. }
    rewrite IH; rewrite reverse_cons, <- app_assoc; done.
Qed.

(** The order of the names does not depend on how the sorting is done:
    any arrangement of the same descriptors that is in order lists the
    same names. *)
Lemma sorted_names_unique (l1 l2 : Services) :
  StronglySorted aclLe l1 -> StronglySorted aclLe l2 -> l1 ≡ₚ l2 ->
  AclName <$> l1 = AclName <$> l2.
Proof.
  intros H1 H2 Hp.
  assert (Hmap : forall l, StronglySorted aclLe l ->
    StronglySorted (fun a b => stringLess b a = false) (AclName <$> l)).
  { induction 1 as [|a l _ IH Ha]; simpl; constructor; [done|].
    by apply Forall_fmap. }
  apply (StronglySorted_unique_strong (fun a b => stringLess b a = false));
    [|by apply Hmap..|by rewrite Hp].
  intros a b _ _ Hab Hba. by apply stringLess_neither.
Qed.

End sorting.

(** C4.  Sorting a collection through its Len, Less and Swap methods
    succeeds, rearranges the descriptors it was given, and leaves them in
    ascending order of aclName under byte-wise lexicographic comparison;
    sorting the result once more leaves it as it is.  Any other arrangement
    of the same descriptors that is in ascending order lists the same
    aclNames.  Descriptors named zeta, alpha, mu come out as alpha, mu,
    zeta. *)
Theorem C4_sorted_by_aclName :
  (forall data : Services,
      exists sorted,
        sortByAclName data = Some sorted /\
        sorted ≡ₚ data /\
        StronglySorted aclLe sorted /\
        sortByAclName sorted = Some sorted /\
        (forall other : Services,
            other ≡ₚ data -> StronglySorted aclLe other ->
            AclName <$> other = AclName <$> sorted))
  /\ (forall a b : Service,
        aclLe a b <->
        AclName a = AclName b \/ stringLess (AclName a) (AclName b) = true)
  /\ sortByAclName [named (go "zeta") (go "s1"); named (go "alpha") (go "s2");
                    named (go "mu") (go "s3")]
     = Some [named (go "alpha") (go "s2"); named (go "mu") (go "s3");
             named (go "zeta") (go "s1")].
Proof.
  split; [|split].
  - intros data. exists (sortedFrom [] data).
    assert (Hs : StronglySorted aclLe (sortedFrom [] data)).
    { apply sortedFrom_sorted. constructor. }
    repeat split.
    + apply sortByAclName_sortedFrom.
    + apply sortedFrom_Permutation.
    + done.
    + rewrite sortByAclName_sortedFrom. f_equal.
      by apply (sortedFrom_fixed []).
    + intros other Hp Ho. apply sorted_names_unique; [done..|].
      by rewrite Hp, sortedFrom_Permutation.
  - intros a b. unfold aclLe. split.
    + intros Hba.
      destruct (stringLess (AclName a) (AclName b)) eqn:Hab; [by right|]. left.
      by apply stringLess_neither.
    + intros [->|Hlt]; [apply stringLess_irrefl|by apply stringLess_asym].
  - by vm_compute.
Qed.


(** * Further properties of the package *)

(** ** Tokens *)
Section token_facts.
Import strings.

Lemma fieldsFrom_concat f s start :
  concat (fieldsFrom f s start) =
    default [] start ++ List.filter (fun c => negb (f c)) s.
Proof.
  revert start. induction s as [|c s IH]; intros start; simpl.
  - destruct start; simpl; by rewrite ?app_nil_r.
  - destruct (f c), start; simpl; rewrite IH; simpl; by rewrite <- ?app_assoc.
Qed.

Lemma FieldsFunc_elem f s t c : t ∈ FieldsFunc s f -> c ∈ t -> c ∈ s.
Proof.
  intros Ht Hc.
  assert (Hin : c ∈ concat (FieldsFunc s f)).
  { apply list_elem_of_In, in_concat. exists t. by rewrite <- !list_elem_of_In. }
  unfold FieldsFunc in Hin. rewrite fieldsFrom_concat in Hin. simpl in Hin.
  apply list_elem_of_In, filter_In in Hin as [Hin _].
  by apply list_elem_of_In.
Qed.

(** What [Trim] returns neither starts nor ends with a byte of the cutset. *)
Lemma TrimLeft_head cutset s c :
  head (TrimLeft s cutset) = Some c -> c ∉ cutset.
Proof.
  induction s as [|x s IH]; simpl; [done|].
  destruct (inCutset cutset x) eqn:Hx; [done|].
  intros [= <-]. by apply inCutset_false.
Qed.

Lemma TrimLeft_last cutset s c :
  last (TrimLeft s cutset) = Some c -> last s = Some c.
Proof.
  destruct (TrimLeft_suffix cutset s) as [w E]. intros Hc.
  rewrite E, last_app, Hc. done.
Qed.

Lemma Trim_is_trimmed cutset s : trimmed cutset (Trim s cutset).
Proof.
  unfold Trim. split; intros c Hc.
  - by eapply TrimLeft_head.
  - apply TrimLeft_last in Hc. unfold TrimRight in Hc.
    rewrite last_reverse in Hc. by eapply TrimLeft_head.
Qed.

(** The four things one iteration can do with a token; which one does not
    depend on the context or on the two flags. *)
Lemma token_cases tok :
  (Trim tok [NL; TAB; SP] = [] /\
   forall context encrypted skipEmptyPassword st,
     extractUser context encrypted skipEmptyPassword st tok = st)
  \/ (malformedEntry tok /\
      forall context encrypted skipEmptyPassword st,
        extractUser context encrypted skipEmptyPassword st tok =
          logPrintf 153 invalidUserFormat [context] st)
  \/ (exists before after,
        Trim tok [NL; TAB; SP] = before ++ COLON :: after /\
        (COLON ∉ before) /\
        Trim before [TAB; SP] <> [] /\ Trim after [TAB; SP] <> [] /\
        forall context encrypted skipEmptyPassword st,
          extractUser context encrypted skipEmptyPassword st tok =
            appendUser (mkUser (Trim before [TAB; SP]) (Trim after [TAB; SP])
                          encrypted) st)
  \/ (bareEntry tok /\
      forall context encrypted skipEmptyPassword st,
        extractUser context encrypted skipEmptyPassword st tok =
          if skipEmptyPassword
          then logPrintf 163 noPasswordFormat
                 [context; Trim tok [NL; TAB; SP]] st
          else appendUser (mkUser (Trim tok [NL; TAB; SP]) [] false) st).
Proof.
  destruct (Trim tok [NL; TAB; SP]) as [|x t] eqn:E.
  { left. split; [done|]. intros. by apply extractUser_blank. }
  rewrite <- E. right.
  destruct (Contains (Trim tok [NL; TAB; SP]) COLON) eqn:Hcolon.
  - destruct (Contains_split _ _ Hcolon) as (before & after & Et & Hb).
    destruct (decide (Trim before [TAB; SP] = [] \/ Trim after [TAB; SP] = []))
      as [Hbad|Hgood].
    + left. split; [by exists before, after|]. intros.
      rewrite (extractUser_colon _ _ _ _ _ before after) by done.
      by rewrite bool_decide_eq_true_2.
    + right. left. exists before, after.
      split; [done|]. split; [done|].
      split; [tauto|]. split; [tauto|]. intros.
      rewrite (extractUser_colon _ _ _ _ _ before after) by done.
      by rewrite bool_decide_eq_false_2.
  - right. right.
    assert (Hbare : bareEntry tok).
    { split; [by rewrite E|]. intros Hin.
      apply list_elem_of_split_l in Hin as (before & after & Et & Hb).
      rewrite Et, Contains_first in Hcolon; done. }
    split; [done|]. intros. destruct Hbare. by apply extractUser_bare.
Qed.

End token_facts.

Section token_lists.
Import strings.

Lemma nonBlank_true tok : Trim tok [NL; TAB; SP] <> [] -> nonBlank tok = true.
Proof. unfold nonBlank. by destruct (Trim tok [NL; TAB; SP]). Qed.

Lemma nonBlank_false tok : Trim tok [NL; TAB; SP] = [] -> nonBlank tok = false.
Proof. unfold nonBlank. by intros ->. Qed.

Lemma malformedEntry_nonBlank tok : malformedEntry tok -> nonBlank tok = true.
Proof.
  intros (before & after & E & _). apply nonBlank_true. rewrite E.
  by destruct before.
Qed.

Lemma foldl_blank_tokens context encrypted skipEmptyPassword st toks :
  Forall (fun t => Trim t [NL; TAB; SP] = []) toks ->
  foldl (extractUser context encrypted skipEmptyPassword) st toks = st.
Proof.
  induction 1 as [|t toks Ht _ IH]; simpl; [done|].
  by rewrite extractUser_blank.
Qed.

(** A user made by one iteration on a token without delimiters is in
    normal form, and its flag is the [encrypted] argument if it has a
    password and false if not. *)
Lemma token_user context encrypted skipEmptyPassword tok u :
  Forall (fun c => splitter c = false) tok ->
  u ∈ collectedUsers (extractUser context encrypted skipEmptyPassword nothing tok) ->
  normalUser u /\ PassEncrypted u = encrypted && HasPassword u.
Proof.
  intros Hsep.
  assert (Hsub : forall s, (forall c, c ∈ s -> c ∈ Trim tok [NL; TAB; SP]) ->
                           Forall (fun c => splitter c = false) s).
  { intros s Hs. apply Forall_forall. intros c Hc.
    eapply Forall_forall in Hsep; [exact Hsep|]. by eapply Trim_in, Hs. }
  assert (Hnarrow : forall s, trimmed [NL; TAB; SP] s -> trimmed [TAB; SP] s).
  { intros s [Hh Hl]. split; intros c Hc; [specialize (Hh c Hc)|specialize (Hl c Hc)];
      byte_cases. }
  destruct (token_cases tok)
    as [[_ ->]|[[_ ->]|[(before & after & E & Hb & Hu & Hp & ->)|[[Hne Hc] ->]]]];
    simpl; try by intros ?%elem_of_nil.
  - intros ->%list_elem_of_singleton. unfold normalUser, plain, HasPassword. simpl.
    repeat split.
    + done.
    + apply Hsub. intros c Hin%Trim_in. rewrite E. apply elem_of_app. by left.
    + apply Trim_is_trimmed.
    + apply Trim_is_trimmed.
    + by intros Hin%Trim_in.
    + right. repeat split; [done| |apply Trim_is_trimmed..].
      apply Hsub. intros c Hin%Trim_in. rewrite E. apply elem_of_app.
      right. by right.
    + destruct (Trim after [TAB; SP]); [done|]. simpl. by rewrite andb_true_r.
  - destruct skipEmptyPassword; simpl; [by intros ?%elem_of_nil|].
    intros ->%list_elem_of_singleton. unfold normalUser, plain, HasPassword. simpl.
    repeat split; try done; try by left.
    + by apply Hsub.
    + apply Hnarrow, Trim_is_trimmed.
    + apply Hnarrow, Trim_is_trimmed.
    + by rewrite andb_false_r.
Qed.

End token_lists.

Section parsed_users.
Import strings.
Variables (context : gostring) (encrypted skipEmptyPassword : bool).

Lemma ExtractUsersFromString_user usersString u :
  u ∈ collectedUsers
        (ExtractUsersFromString context usersString encrypted skipEmptyPassword) ->
  normalUser u /\ PassEncrypted u = encrypted && HasPassword u.
Proof.
  rewrite ExtractUsersFromString_users.
  intros Hu%list_elem_of_In%in_concat. destruct Hu as (us & Hus & Hu).
  apply in_map_iff in Hus as (tok & <- & Htok).
  apply list_elem_of_In in Htok, Hu.
  pose proof (FieldsFunc_fields splitter usersString) as Hf.
  eapply Forall_forall in Hf as [_ Hsep]; [|exact Htok].
  by eapply token_user.
Qed.

End parsed_users.

(** X1.  A raw string made only of newlines, commas, tabs and spaces (the
    empty string among them) gives no user and prints nothing. *)
Theorem X1_delimiters_and_blanks_only :
  forall context usersString encrypted skipEmptyPassword,
    Forall (fun c => c ∈ [NL; COMMA; TAB; SP]) usersString ->
    ExtractUsersFromString context usersString encrypted skipEmptyPassword = nothing.
Proof.
  intros context usersString encrypted skipEmptyPassword Hraw.
  rewrite ExtractUsersFromString_fields. apply foldl_blank_tokens.
  apply Forall_forall. intros t Ht. apply Trim_all, Forall_forall. intros c Hc.
  pose proof (FieldsFunc_fields splitter usersString) as Hf.
  eapply Forall_forall in Hf as [_ Hsep]; [|exact Ht].
  eapply Forall_forall in Hsep; [|exact Hc]. apply splitter_false in Hsep.
  eapply Forall_forall in Hraw; [|by eapply FieldsFunc_elem]. byte_cases.
Qed.

Lemma X1_witness :
  ExtractUsersFromString (go "svc") (go " ,, " ++ [NL; TAB; COMMA; NL]) true false
    = nothing.
Proof.
  apply X1_delimiters_and_blanks_only. by_computation.
Defined.

(** X2.  Every token that is not blank after trimming is either turned into
    exactly one user or reported by exactly one diagnostic, never both and
    never neither: the users and the diagnostics together are as many as
    the non-blank tokens. *)
Theorem X2_accepted_or_reported :
  forall context usersString encrypted skipEmptyPassword,
    let r := ExtractUsersFromString context usersString encrypted skipEmptyPassword in
    (length (collectedUsers r) + length (printed r))%nat =
      length (List.filter nonBlank (strings.FieldsFunc usersString splitter)).
Proof.
  intros context usersString encrypted skipEmptyPassword r. subst r.
  rewrite ExtractUsersFromString_users, ExtractUsersFromString_printed.
  induction (strings.FieldsFunc usersString splitter) as [|tok toks IH];
    simpl; [done|].
  rewrite !length_app.
  destruct (token_cases tok)
    as [[E ->]|[[Hbad ->]|[(before & after & E & _ & _ & _ & ->)|[[Hne _] ->]]]].
  - rewrite nonBlank_false by done. simpl. lia.
  - rewrite malformedEntry_nonBlank by done. simpl. lia.
  - rewrite nonBlank_true by (rewrite E; by destruct before). simpl. lia.
  - rewrite nonBlank_true by done. destruct skipEmptyPassword; simpl; lia.
Qed.

(** X3.  The flag of every returned user is the [encrypted] argument when
    the user has a password and false when it has none. *)
Theorem X3_flag_follows_password :
  forall context usersString encrypted skipEmptyPassword,
    Forall (fun u => PassEncrypted u = encrypted && HasPassword u)
      (collectedUsers
         (ExtractUsersFromString context usersString encrypted skipEmptyPassword)).
Proof.
  intros. apply Forall_forall. intros u Hu.
  by eapply ExtractUsersFromString_user.
Qed.

(** X4.  Parsing with skipEmptyPassword=true returns the users that parsing
    with skipEmptyPassword=false returns, without those that have no
    password and in the same order. *)
Theorem X4_skip_filters_passwordless :
  forall context usersString encrypted,
    collectedUsers (ExtractUsersFromString context usersString encrypted true) =
      List.filter HasPassword
        (collectedUsers (ExtractUsersFromString context usersString encrypted false)).
Proof.
  intros context usersString encrypted.
  rewrite !ExtractUsersFromString_users.
  induction (strings.FieldsFunc usersString splitter) as [|tok toks IH];
    simpl; [done|].
  rewrite List.filter_app, <- IH. f_equal.
  destruct (token_cases tok)
    as [[E H]|[[Hbad H]|[(before & after & E & _ & _ & Hp & H)|[[Hne _] H]]]];
    rewrite !H; try done.
  simpl. unfold HasPassword. simpl.
  by destruct (strings.Trim after [TAB; SP]).
Qed.

(** X5.  The context is used for the diagnostics only: the returned users
    are the same for every context, the diagnostics come from the same
    source lines, and each diagnostic names the context as its first
    argument. *)
Theorem X5_context_only_in_diagnostics :
  forall context context' usersString encrypted skipEmptyPassword,
    let r := ExtractUsersFromString context usersString encrypted skipEmptyPassword in
    let r' := ExtractUsersFromString context' usersString encrypted skipEmptyPassword in
    collectedUsers r = collectedUsers r' /\
    logLine <$> printed r = logLine <$> printed r' /\
    Forall (fun call => head (logArgs call) = Some context) (printed r).
Proof.
  intros context context' usersString encrypted skipEmptyPassword r r'.
  subst r r'.
  rewrite !ExtractUsersFromString_users, !ExtractUsersFromString_printed.
  induction (strings.FieldsFunc usersString splitter) as [|tok toks (IHu & IHp & IHc)];
    simpl; [by repeat split|].
  rewrite !fmap_app, Forall_app, IHu, IHp.
  destruct (token_cases tok)
    as [[E H]|[[Hbad H]|[(before & after & E & _ & _ & _ & H)|[[Hne _] H]]]];
    rewrite !H; try by repeat split; simpl; repeat constructor.
  destruct skipEmptyPassword; by repeat split; simpl; repeat constructor.
Qed.

(** X6.  Every returned user is in normal form: the username is non-empty,
    holds no colon, newline or comma and neither starts nor ends with a
    tab or space; the password is empty or is non-empty, holds no newline
    or comma and neither starts nor ends with a tab or space. *)
Theorem X6_users_in_normal_form :
  forall context usersString encrypted skipEmptyPassword,
    Forall normalUser
      (collectedUsers
         (ExtractUsersFromString context usersString encrypted skipEmptyPassword)).
Proof.
  intros. apply Forall_forall. intros u Hu.
  by eapply ExtractUsersFromString_user.
Qed.

(** X7.  The tokens the parser works on are non-empty and hold neither a
    newline nor a comma, and put together they are the raw string without
    its newlines and commas. *)
Theorem X7_tokens_of_raw_string :
  forall usersString,
    Forall (fun t => t <> [] /\ (NL ∉ t) /\ (COMMA ∉ t))
      (strings.FieldsFunc usersString splitter) /\
    concat (strings.FieldsFunc usersString splitter) =
      List.filter (fun c => negb (splitter c)) usersString.
Proof.
  intros usersString. split.
  - eapply Forall_impl; [apply FieldsFunc_fields|]. intros t [Hne Hsep].
    split; [done|]. split; intros Hin;
      (eapply Forall_forall in Hsep; [|exact Hin]); done.
  - unfold strings.FieldsFunc. by rewrite fieldsFrom_concat.
Qed.

(** X8.  Parsing composes over delimiters: the result for two strings
    joined by a newline or a comma is the result for the first followed by
    the result for the second.  So either delimiter does the same, and a
    doubled delimiter does the same as a single one. *)
Theorem X8_delimiters_compose :
  forall context encrypted skipEmptyPassword a c c' b,
    splitter c = true -> splitter c' = true ->
    let run s := ExtractUsersFromString context s encrypted skipEmptyPassword in
    run (a ++ c :: b) =
      {| collectedUsers := collectedUsers (run a) ++ collectedUsers (run b);
         printed := printed (run a) ++ printed (run b) |}
    /\ run (a ++ c' :: b) = run (a ++ c :: b)
    /\ run (a ++ c :: c' :: b) = run (a ++ c :: b).
Proof.
  intros context encrypted skipEmptyPassword a c c' b Hc Hc' run. subst run.
  simpl. rewrite !run_sep by done. repeat split.
  change (c' :: b) with ([] ++ c' :: b). rewrite run_sep by done. done.
Qed.

Lemma X8_witness :
  let run s := ExtractUsersFromString (go "svc") s true false in
  run (go "al:pw,:x" ++ NL :: go "eve") =
    {| collectedUsers := collectedUsers (run (go "al:pw,:x"))
                           ++ collectedUsers (run (go "eve"));
       printed := printed (run (go "al:pw,:x")) ++ printed (run (go "eve")) |}
  /\ run (go "al:pw,:x" ++ COMMA :: go "eve") = run (go "al:pw,:x" ++ NL :: go "eve")
  /\ run (go "al:pw,:x" ++ NL :: COMMA :: go "eve")
     = run (go "al:pw,:x" ++ NL :: go "eve").
Proof.
  apply (X8_delimiters_compose (go "svc") true false
           (go "al:pw,:x") NL COMMA (go "eve")); by_computation.
Defined.

(** Closed goals [plain s] and [normalUser u] for concrete strings. *)
Ltac prove_plain :=
  split; [done | split; [by_computation | split; intros ? [= <-]; by_computation]].

Ltac prove_normal :=
  split; [prove_plain | split; [by_computation | (by left) || (right; prove_plain)]].

Section rendering.
Import strings.
Variables (context : gostring) (encrypted skipEmptyPassword : bool).

Local Abbreviation run s :=
  (ExtractUsersFromString context s encrypted skipEmptyPassword).

Local Abbreviation acceptable := (acceptableUser encrypted skipEmptyPassword).

Lemma run_renderUser u :
  acceptable u -> run (renderUser u) = {| collectedUsers := [u]; printed := [] |}.
Proof.
  destruct u as [name pass flag].
  intros ((Hname & Hcolon & Hpass) & Hflag & Hskip). simpl in *.
  unfold renderUser, HasPassword in *. simpl in *.
  destruct pass as [|p pass]; simpl in *.
  - rewrite andb_false_r in Hflag. subst flag.
    pose proof (run_padded_bare context encrypted skipEmptyPassword name [] []
                  Hname Hcolon (Forall_nil_2 _) (Forall_nil_2 _)) as H.
    simpl in H. rewrite app_nil_r in H. rewrite H.
    destruct skipEmptyPassword; [by specialize (Hskip eq_refl)|done].
  - rewrite andb_true_r in Hflag. subst flag.
    destruct Hpass as [?|Hpass]; [done|].
    pose proof (run_padded_entry context encrypted skipEmptyPassword
                  name (p :: pass) [] [] [] [] Hname Hcolon Hpass
                  (Forall_nil_2 _) (Forall_nil_2 _) (Forall_nil_2 _)
                  (Forall_nil_2 _)) as H.
    simpl in H. rewrite !app_nil_r in H. by rewrite H.
Qed.

Lemma run_renderUsers us :
  Forall acceptable us ->
  run (renderUsers us) = {| collectedUsers := us; printed := [] |}.
Proof.
  induction 1 as [|u us Hu Hus IH]; [done|].
  destruct us as [|u' us]; [by apply run_renderUser|].
  change (renderUsers (u :: u' :: us))
    with (renderUser u ++ COMMA :: renderUsers (u' :: us)).
  rewrite run_sep by done. by rewrite IH, run_renderUser.
Qed.

Lemma ExtractUsersFromString_acceptable usersString :
  Forall acceptable (collectedUsers (run usersString)).
Proof.
  apply Forall_forall. intros u Hu.
  destruct (ExtractUsersFromString_user _ _ _ _ _ Hu) as [Hn Hf].
  split; [done|]. split; [done|]. intros ->.
  rewrite ExtractUsersFromString_users in Hu.
  apply list_elem_of_In, in_concat in Hu as (us & Hus & Hu).
  apply in_map_iff in Hus as (tok & <- & _). revert Hu.
  destruct (token_cases tok)
    as [[E ->]|[[Hbad ->]|[(before & after & E & _ & _ & Hp & ->)|[[Hne _] ->]]]];
    simpl; try done.
  intros [<-|[]]. unfold HasPassword. simpl.
  by destruct (Trim after [TAB; SP]).
Qed.

End rendering.

(** X9.  Round trip from users to a credential string and back.  Users in
    normal form whose flag is [encrypted] when they have a password and
    false when they have none, written as [username:password] or bare
    [username] entries joined by commas, parse with skipEmptyPassword=false
    to exactly these users, in order, with no diagnostic. *)
Theorem X9_render_then_parse :
  forall context encrypted us,
    Forall normalUser us ->
    Forall (fun u => PassEncrypted u = encrypted && HasPassword u) us ->
    ExtractUsersFromString context (renderUsers us) encrypted false =
      {| collectedUsers := us; printed := [] |}.
Proof.
  intros context encrypted us Hn Hf. apply run_renderUsers.
  apply Forall_forall. intros u Hu. split; [|split; [|done]].
  - eapply Forall_forall in Hn; [exact Hn|done].
  - eapply Forall_forall in Hf; [exact Hf|done].
Qed.

Lemma X9_witness :
  ExtractUsersFromString (go "svc") (go "al:p:w,eve,bob:x y") true false =
    {| collectedUsers := [mkUser (go "al") (go "p:w") true;
                          mkUser (go "eve") [] false;
                          mkUser (go "bob") (go "x y") true];
       printed := [] |}.
Proof.
  apply (X9_render_then_parse (go "svc") true
           [mkUser (go "al") (go "p:w") true; mkUser (go "eve") [] false;
            mkUser (go "bob") (go "x y") true]).
  - repeat apply Forall_cons_2; [..|apply Forall_nil_2]; prove_normal.
  - by repeat constructor.
Defined.

(** X10.  What the parser returns is a fixed point of writing and parsing:
    the users parsed from any string, written back as a credential string
    and parsed again with the same flags, are the same users, and nothing
    is reported the second time. *)
Theorem X10_parse_render_parse :
  forall context usersString encrypted skipEmptyPassword,
    let us := collectedUsers
                (ExtractUsersFromString context usersString encrypted
                   skipEmptyPassword) in
    ExtractUsersFromString context (renderUsers us) encrypted skipEmptyPassword =
      {| collectedUsers := us; printed := [] |}.
Proof.
  intros context usersString encrypted skipEmptyPassword us. subst us.
  apply run_renderUsers, ExtractUsersFromString_acceptable.
Qed.

(** X11.  When the trimmed token contains a colon, the offset
    [strings.Index] returns lies inside the token, so the two slice
    expressions cannot go out of range; the two slices hold no more and no
    less than the token without its first colon, and the first holds no
    colon. *)
Theorem X11_split_keeps_token :
  forall user,
    strings.Contains user COLON = true ->
    let colonIndex := strings.Index user COLON in
    (0 <= colonIndex /\ colonIndex + 1 <= Z.of_nat (length user))%Z /\
    user = slice user 0 colonIndex ++ COLON :: sliceFrom user (colonIndex + 1) /\
    COLON ∉ slice user 0 colonIndex.
Proof.
  intros user Hcolon colonIndex. subst colonIndex.
  split; [by apply colon_index_in_range|].
  destruct (Contains_split _ _ Hcolon) as (before & after & -> & Hb).
  destruct (slice_at_colon before after Hb) as [-> ->]. done.
Qed.

Lemma X11_witness :
  let user := go "al:p:w" in
  let colonIndex := strings.Index user COLON in
  (0 <= colonIndex /\ colonIndex + 1 <= Z.of_nat (length user))%Z /\
  user = slice user 0 colonIndex ++ COLON :: sliceFrom user (colonIndex + 1) /\
  COLON ∉ slice user 0 colonIndex.
Proof. apply (X11_split_keeps_token (go "al:p:w")). by_computation. Defined.

(** ** The [sort.Interface] methods *)
Section interface.

Lemma stringLess_trans a b c :
  stringLess a b = true -> stringLess b c = true -> stringLess a c = true.
Proof.
  revert b c. induction a as [|x a IH]; intros [|y b] [|z c]; simpl; try done.
  destruct (Nat.ltb_spec (nat_of_ascii x) (nat_of_ascii y)),
           (Nat.ltb_spec (nat_of_ascii y) (nat_of_ascii x)),
           (Nat.ltb_spec (nat_of_ascii y) (nat_of_ascii z)),
           (Nat.ltb_spec (nat_of_ascii z) (nat_of_ascii y)),
           (Nat.ltb_spec (nat_of_ascii x) (nat_of_ascii z)),
           (Nat.ltb_spec (nat_of_ascii z) (nat_of_ascii x));
    try done; try lia. apply IH.
Qed.

Lemma Less_Some (slice : Services) i j r :
  Less slice i j = Some r <->
  exists a b, slice !! i = Some a /\ slice !! j = Some b /\
              r = stringLess (AclName a) (AclName b).
Proof.
  unfold Less. split.
  - destruct (slice !! i) as [a|], (slice !! j) as [b|]; simpl; try done.
    intros [= <-]. by exists a, b.
  - intros (a & b & -> & -> & ->). done.
Qed.

Lemma exchanged_involutive i j k : exchanged i j (exchanged i j k) = k.
Proof. unfold exchanged. repeat case_decide; congruence. Qed.

Lemma Swap_lookup (slice slice' : Services) i j k :
  Swap slice i j = Some slice' -> slice' !! k = slice !! exchanged i j k.
Proof.
  unfold Swap.
  destruct (slice !! i) as [a|] eqn:Hi, (slice !! j) as [b|] eqn:Hj;
    simpl; try done.
  intros [= <-].
  pose proof (lookup_lt_Some _ _ _ Hi). pose proof (lookup_lt_Some _ _ _ Hj).
  rewrite !list_lookup_insert, length_insert. unfold exchanged.
  repeat case_decide; subst; try done; try lia.
  destruct_and!. subst. by rewrite Hi.
Qed.

Lemma Swap_length (slice slice' : Services) i j :
  Swap slice i j = Some slice' -> length slice' = length slice.
Proof.
  unfold Swap.
  destruct (slice !! i) as [a|], (slice !! j) as [b|]; simpl; try done.
  intros [= <-]. by rewrite !length_insert.
Qed.

Lemma Swap_is_Some (slice : Services) i j :
  is_Some (Swap slice i j) <-> (i < Len slice /\ j < Len slice)%nat.
Proof.
  unfold Swap, Len. split.
  - destruct (slice !! i) as [a|] eqn:Hi, (slice !! j) as [b|] eqn:Hj;
      simpl; try by intros [? [=]].
    intros _. split; by eapply lookup_lt_Some.
  - intros [[a ->]%lookup_lt_is_Some_2 [b ->]%lookup_lt_is_Some_2]. by eexists.
Qed.

End interface.

(** X12.  [Less] panics exactly when an index is outside the slice;
    inside it, it is a strict order on the aclNames: no element is less
    than itself, two elements are never less than each other both ways,
    less is transitive, and two elements neither of which is less than the
    other have the same aclName. *)
Theorem X12_Less_is_a_strict_order :
  forall (slice : Services) (i j k : nat),
    (Less slice i j = None <-> ~ (i < Len slice /\ j < Len slice)%nat) /\
    ((i < Len slice)%nat -> Less slice i i = Some false) /\
    (Less slice i j = Some true -> Less slice j i = Some false) /\
    (Less slice i j = Some true -> Less slice j k = Some true ->
     Less slice i k = Some true) /\
    (Less slice i j = Some false -> Less slice j i = Some false ->
     AclName <$> slice !! i = AclName <$> slice !! j).
Proof.
  intros slice i j k. repeat split.
  - unfold Less, Len. intros Hnone [Hi Hj].
    apply lookup_lt_is_Some_2 in Hi as [a Ha], Hj as [b Hb].
    by rewrite Ha, Hb in Hnone.
  - unfold Less, Len. intros Hout.
    destruct (slice !! i) as [a|] eqn:Hi, (slice !! j) as [b|] eqn:Hj;
      simpl; try done.
    destruct Hout. split; by eapply lookup_lt_Some.
  - unfold Len. intros [a Ha]%lookup_lt_is_Some_2. unfold Less. rewrite Ha.
    simpl. by rewrite stringLess_irrefl.
  - intros (a & b & Ha & Hb & Hlt)%Less_Some. apply Less_Some.
    exists b, a. repeat split; [done..|]. symmetry. by apply stringLess_asym.
  - intros (a & b & Ha & Hb & Hab)%Less_Some (b' & c & Hb' & Hc & Hbc)%Less_Some.
    apply Less_Some. exists a, c. repeat split; [done..|].
    assert (b' = b) as -> by congruence.
    symmetry. by apply (stringLess_trans _ (AclName b)).
  - intros (a & b & Ha & Hb & Hab)%Less_Some (b' & a' & Hb' & Ha' & Hba)%Less_Some.
    assert (b' = b) as -> by congruence. assert (a' = a) as -> by congruence.
    rewrite Ha, Hb. simpl. f_equal. by apply stringLess_neither.
Qed.

Lemma X12_witness :
  let slice := [named (go "mu") []; named (go "alpha") []; named (go "alpha") []] in
  Less slice 1 0 = Some true /\ Less slice 0 1 = Some false /\
  AclName <$> slice !! 1 = AclName <$> slice !! 2 /\
  Less slice 0 3 = None.
Proof.
  pose (slice := [named (go "mu") []; named (go "alpha") []; named (go "alpha") []]).
  split; [by vm_compute|]. split.
  - apply (X12_Less_is_a_strict_order slice 1 0 0). by vm_compute.
  - split.
    + apply (X12_Less_is_a_strict_order slice 1 2 0); by vm_compute.
    + apply (X12_Less_is_a_strict_order slice 0 3 0). vm_compute. lia.
Defined.

(** X13.  [Swap] panics exactly when an index is outside the slice.
    Inside it, the two elements change places and every other element
    stays where it is, so the slice keeps its length and its elements, and
    swapping the same two offsets again restores it. *)
Theorem X13_Swap_exchanges_two_elements :
  forall (slice : Services) (i j : nat),
    (is_Some (Swap slice i j) <-> (i < Len slice /\ j < Len slice)%nat) /\
    (forall slice',
        Swap slice i j = Some slice' ->
        Len slice' = Len slice /\
        slice' ≡ₚ slice /\
        slice' !! i = slice !! j /\
        slice' !! j = slice !! i /\
        (forall k, k <> i -> k <> j -> slice' !! k = slice !! k) /\
        Swap slice' i j = Some slice).
Proof.
  intros slice i j. split; [apply Swap_is_Some|].
  intros slice' Hswap.
  pose proof (fun k => Swap_lookup _ _ _ _ k Hswap) as Hlook.
  pose proof (Swap_length _ _ _ _ Hswap) as Hlen.
  split; [done|]. split; [|split; [|split; [|split]]].
  - apply Permutation_inj. split; [done|].
    exists (exchanged i j). split; [|done].
    intros k1 k2 E. by rewrite <- (exchanged_involutive i j k1), E,
      exchanged_involutive.
  - rewrite Hlook. unfold exchanged. by rewrite decide_True.
  - rewrite Hlook. unfold exchanged. by repeat case_decide; subst.
  - intros k Hi Hj. rewrite Hlook. unfold exchanged.
    by rewrite !decide_False.
  - assert (is_Some (Swap slice' i j)) as [slice'' Hback].
    { apply Swap_is_Some. unfold Len. rewrite Hlen.
      apply Swap_is_Some. by eexists. }
    rewrite Hback. f_equal. apply list_eq. intros k.
    rewrite (Swap_lookup _ _ _ _ k Hback), Hlook.
    by rewrite exchanged_involutive.
Qed.

Lemma X13_witness :
  let slice := [named (go "mu") []; named (go "alpha") []; named (go "zeta") []] in
  Swap slice 0 2 =
    Some [named (go "zeta") []; named (go "alpha") []; named (go "mu") []] /\
  Swap [named (go "zeta") []; named (go "alpha") []; named (go "mu") []] 0 2
    = Some slice.
Proof.
  split; [by vm_compute|].
  apply (X13_Swap_exchanges_two_elements
           [named (go "mu") []; named (go "alpha") []; named (go "zeta") []] 0 2).
  by vm_compute.
Defined.

(** ** More on the placeholder user *)
Section placeholder_form.
Import strconv.

Lemma digit_ternary_nonzero r :
  (0 < r < 3)%Z -> digit r <> "0"%char.
Proof.
  intros Hr. assert (r = 1 \/ r = 2)%Z as [->| ->] by lia; by vm_compute.
Qed.

(** The digits the loop writes for a number below [3 ^ (k + 1)]: at most
    [k + 1] of them, all ternary, no leading zero, and the number is their
    value. *)
Lemma formatBits_numeral k room u a :
  (0 <= u < 3 ^ Z.of_nat (S k))%Z -> (k <= room)%nat ->
  exists ds,
    formatBits (S room) u 3 a = ds ++ a /\
    (1 <= length ds <= S k)%nat /\
    Forall (fun c => c ∈ go "012") ds /\
    valueOf 3 ds = u /\
    (u = 0%Z -> ds = go "0") /\
    ((0 < u)%Z -> head ds <> Some "0"%char).
Proof.
  revert room u a. induction k as [|k IH]; intros room u a Hu Hroom.
  - change (3 ^ Z.of_nat 1)%Z with 3%Z in Hu.
    simpl formatBits.
    destruct (Z.leb_spec 3 u) as [?|_]; [lia|].
    destruct (digit_ternary u Hu) as (Hd & Hv & _).
    exists [digit u]. repeat split; simpl; try done; try lia.
    all: first [ by apply Forall_singleton
               | by intros ->
               | (unfold valueOf; simpl; lia)
               | (intros Hpos [= E]; by apply (digit_ternary_nonzero u); [lia|]) ].
  - destruct room as [|room]; [lia|].
    remember (S room) as room1 eqn:Hroom1. simpl formatBits. subst room1.
    destruct (Z.leb_spec 3 u) as [Hge|Hlt].
    + assert (Hq : (0 <= u / 3 < 3 ^ Z.of_nat (S k))%Z).
      { rewrite (Nat2Z.inj_succ (S k)), Z.pow_succ_r in Hu by lia.
        split; [apply Z.div_pos; lia|]. apply Z.div_lt_upper_bound; lia. }
      assert (Hq1 : (0 < u / 3)%Z).
      { apply Z.div_str_pos. lia. }
      assert (Hr : (0 <= u - u / 3 * 3 < 3)%Z).
      { pose proof (Z.mod_pos_bound u 3 ltac:(lia)).
        pose proof (Z.div_mod u 3 ltac:(lia)). lia. }
      destruct (IH room (u / 3)%Z (digit (u - u / 3 * 3) :: a) Hq ltac:(lia))
        as (ds & -> & Hlen & Hds & Hval & _ & Hhead).
      destruct (digit_ternary _ Hr) as (Hd & Hdv & _).
      exists (ds ++ [digit (u - u / 3 * 3)]). repeat split.
      * by rewrite <- app_assoc.
      * rewrite length_app. simpl. lia.
      * rewrite length_app. simpl. lia.
      * apply Forall_app. split; [done|by apply Forall_singleton].
      * rewrite valueOf_snoc, Hval, Hdv. lia.
      * lia.
      * intros _. destruct ds as [|d ds]; [simpl in Hlen; lia|]. simpl.
        by apply Hhead.
    + destruct (digit_ternary u ltac:(lia)) as (Hd & Hv & _).
      exists [digit u]. repeat split; simpl; try done; try lia.
      all: first [ by apply Forall_singleton
                 | by intros ->
                 | (unfold valueOf; simpl; lia)
                 | (intros Hpos [= E]; by apply (digit_ternary_nonzero u); [lia|]) ].
Qed.

Lemma isDigit_not_special c :
  isDigit c = true -> splitter c = false /\ c ∉ [TAB; SP].
Proof.
  intros Hc. split.
  - apply splitter_false. split; intros ->; by vm_compute in Hc.
  - intros Hin. set_unfold in Hin. destruct Hin as [->|[->|[]]]; by vm_compute in Hc.
Qed.

Lemma password_plain r :
  (0 <= r < 2 ^ 63)%Z -> plain (Password (RandomUser r)).
Proof.
  intros Hr. destruct (FormatInt_ternary r Hr) as (Hne & Hds & _). simpl.
  split; [done|]. split; [|split].
  - eapply Forall_impl; [exact Hds|]. intros c Hc. by apply isDigit_not_special.
  - intros c Hc. apply isDigit_not_special.
    eapply Forall_forall in Hds; [exact Hds|].
    destruct (FormatInt r 3); [done|]. injection Hc as <-. by left.
  - intros c Hc%last_Some_elem_of. apply isDigit_not_special.
    by eapply Forall_forall in Hds.
Qed.

End placeholder_form.

(** X14.  The placeholder password is the base-3 numeral of the random
    number: only the digits 0, 1 and 2, at most 40 of them, no leading
    zero except for the number zero itself (written "0"), and reading the
    digits in base 3 gives the number back. *)
Theorem X14_placeholder_password_is_ternary :
  forall r, (0 <= r < 2 ^ 63)%Z ->
    let password := Password (RandomUser r) in
    Forall (fun c => c ∈ go "012") password /\
    valueOf 3 password = r /\
    (1 <= length password <= 40)%nat /\
    (r = 0%Z -> password = go "0") /\
    ((0 < r)%Z -> head password <> Some "0"%char).
Proof.
  intros r Hr password. subst password. simpl. unfold strconv.FormatInt.
  destruct (Z.ltb_spec r 0) as [?|_]; [lia|].
  change 64%nat with (S 63).
  destruct (formatBits_numeral 39 63 r []) as (ds & -> & Hlen & Hds & Hval & H0 & Hh).
  { split; [lia|]. eapply Z.lt_trans; [apply Hr|]. by vm_compute. }
  { lia. }
  rewrite app_nil_r. done.
Qed.

Lemma X14_witness :
  let password := Password (RandomUser 1000) in
  Forall (fun c => c ∈ go "012") password /\
  valueOf 3 password = 1000%Z /\
  (1 <= length password <= 40)%nat /\
  (1000%Z = 0%Z -> password = go "0") /\
  ((0 < 1000)%Z -> head password <> Some "0"%char).
Proof. apply (X14_placeholder_password_is_ternary 1000). by vm_compute. Defined.

(** X15.  The placeholder user has a password, and written as a
    [username:password] entry it is read back by the parser, called with
    encrypted=true, as exactly the same user, whatever the context and
    skipEmptyPassword are. *)
Theorem X15_placeholder_parses_back :
  forall context skipEmptyPassword r, (0 <= r < 2 ^ 63)%Z ->
    HasPassword (RandomUser r) = true /\
    renderUser (RandomUser r) = go "dummyUser:" ++ Password (RandomUser r) /\
    ExtractUsersFromString context (renderUser (RandomUser r)) true
      skipEmptyPassword =
      {| collectedUsers := [RandomUser r]; printed := [] |}.
Proof.
  intros context skipEmptyPassword r Hr.
  pose proof (password_plain r Hr) as Hplain.
  assert (Hhas : HasPassword (RandomUser r) = true).
  { unfold HasPassword. destruct Hplain as [Hne _].
    by destruct (Password (RandomUser r)). }
  split; [done|]. split.
  - unfold renderUser. by rewrite Hhas.
  - apply run_renderUser. split; [|by split].
    split; [prove_plain|]. split; [by_computation|by right].
Qed.

Lemma X15_witness :
  ExtractUsersFromString (go "svc") (go "dummyUser:1101001") true true =
    {| collectedUsers := [RandomUser 1000]; printed := [] |}.
Proof.
  apply (X15_placeholder_parses_back (go "svc") true 1000). by vm_compute.
Defined.

(** ** Trimming *)
Section trimming.
Import strings.

Lemma TrimLeft_removed cutset s :
  exists w, s = w ++ TrimLeft s cutset /\ Forall (fun c => c ∈ cutset) w.
Proof.
  induction s as [|c s (w & E & Hw)]; simpl; [by exists []|].
  destruct (inCutset cutset c) eqn:Hc.
  - exists (c :: w). split; [simpl; by rewrite <- E|].
    constructor; [by apply inCutset_true|done].
  - by exists [].
Qed.

Lemma TrimRight_removed cutset s :
  exists w, s = TrimRight s cutset ++ w /\ Forall (fun c => c ∈ cutset) w.
Proof.
  unfold TrimRight.
  destruct (TrimLeft_removed cutset (reverse s)) as (w & E & Hw).
  exists (reverse w). split; [|by apply Forall_reverse].
  rewrite <- reverse_app, <- E. by rewrite reverse_involutive.
Qed.

End trimming.

(** X16.  With either of the parser's two cutsets (newline, tab, space
    for a token; tab, space for its halves), [strings.Trim] takes away a
    run of cutset bytes at each end and nothing else: the string is the
    removed head, the result and the removed tail; the result neither
    starts nor ends with a cutset byte; trimming it again changes
    nothing. *)
Theorem X16_Trim_removes_only_the_ends :
  forall s cutset,
    parserCutset cutset ->
    (exists w1 w2,
        s = w1 ++ strings.Trim s cutset ++ w2 /\
        Forall (fun c => c ∈ cutset) w1 /\ Forall (fun c => c ∈ cutset) w2) /\
    trimmed cutset (strings.Trim s cutset) /\
    strings.Trim (strings.Trim s cutset) cutset = strings.Trim s cutset.
Proof.
  intros s cutset _. split; [|split].
  - destruct (TrimRight_removed cutset s) as (w2 & E2 & H2).
    destruct (TrimLeft_removed cutset (strings.TrimRight s cutset))
      as (w1 & E1 & H1).
    exists w1, w2. split; [|done]. unfold strings.Trim.
    by rewrite app_assoc, <- E1.
  - apply Trim_is_trimmed.
  - apply Trim_trimmed, Trim_is_trimmed.
Qed.

Lemma X16_witness :
  let s := [SP; TAB] ++ go "al pw" ++ [TAB; SP; SP] in
  strings.Trim s [TAB; SP] = go "al pw" /\
  trimmed [TAB; SP] (strings.Trim s [TAB; SP]) /\
  strings.Trim (strings.Trim s [TAB; SP]) [TAB; SP] = strings.Trim s [TAB; SP].
Proof.
  split; [by vm_compute|].
  apply (X16_Trim_removes_only_the_ends
           ([SP; TAB] ++ go "al pw" ++ [TAB; SP; SP]) [TAB; SP]).
  by right.
Defined.
